(** * String splitting and the run orchestrator of javascript-obfuscator

    A shallow embedding of [SplitStringTransformer] (chunking routine,
    expression builder, two-pass transform) and of
    [JavaScriptObfuscatorInternal.obfuscate], with the properties the
    specification states about them.

    Conventions of the embedding:
    - a JavaScript string is the list of its UTF-16 code units;
    - a JavaScript number that the code only uses as an integer is a [Z];
      the quotients the code computes may also be [Infinity] or [NaN], so
      their results live in [Js.number];
    - a loop or a traversal whose termination depends on the data takes a
      [fuel] argument, and running out of it is a result of its own, never
      confused with a value or with a thrown error;
    - an array that the code mutates and also hands back to its caller is
      passed through explicitly: a function returns the array as it is
      after the call. *)

From Stdlib Require Import ZArith List Bool Lia.
From Stdlib Require String.
Import ListNotations.
Import String.StringSyntax.
Delimit Scope string_scope with string.

Local Open Scope Z_scope.

(** ** JavaScript values *)

Module Js.

(** A string value: UTF-16 code units. *)
Abbreviation jsstring := (list Z) (only parsing).

(** The numbers that occur: integers, the infinities and NaN.  All the
    integers involved are string lengths and chunk counts, far below 2^53,
    so the double-precision quotient followed by [Math.ceil] or
    [Math.floor] is the exact integer ceiling or floor. *)
Inductive number : Type :=
| Fin (z : Z)
| PosInf
| NegInf
| NaN.

(** [Math.ceil(a / b)] on integers. *)
Definition Math_ceil_div (a b : Z) : number :=
  if b =? 0 then
    if a =? 0 then NaN else if 0 <? a then PosInf else NegInf
  else Fin (- ((- a) / b)).

(** [Math.floor(a / b)] on integers. *)
Definition Math_floor_div (a b : Z) : number :=
  if b =? 0 then
    if a =? 0 then NaN else if 0 <? a then PosInf else NegInf
  else Fin (a / b).

(** [x < y] *)
Definition lt (x y : number) : bool :=
  match x, y with
  | NaN, _ | _, NaN => false
  | Fin a, Fin b => a <? b
  | Fin _, PosInf => true
  | Fin _, NegInf => false
  | PosInf, _ => false
  | NegInf, NegInf => false
  | NegInf, _ => true
  end.

(** [x >= y] *)
Definition ge (x y : number) : bool :=
  match x, y with
  | NaN, _ | _, NaN => false
  | Fin a, Fin b => b <=? a
  | Fin _, PosInf => false
  | Fin _, NegInf => true
  | PosInf, _ => true
  | NegInf, NegInf => true
  | NegInf, _ => false
  end.

(** [Array.prototype.shift]: the removed first element (or [undefined])
    and the array as it is afterwards. *)
Definition shift {A : Type} (arr : list A) : option A * list A :=
  match arr with
  | [] => (None, [])
  | x :: rest => (Some x, rest)
  end.

(** [Array.prototype.slice(begin, end)]. *)
Definition slice {A : Type} (arr : list A) (begin end_ : Z) : list A :=
  let len := Z.of_nat (List.length arr) in
  let k := if begin <? 0 then Z.max (len + begin) 0 else Z.min begin len in
  let final := if end_ <? 0 then Z.max (len + end_) 0 else Z.min end_ len in
  firstn (Z.to_nat (final - k)) (skipn (Z.to_nat k) arr).

(** The value of [!v] for [v : string | undefined] is [false] exactly when
    [v] is a non-empty string. *)
Definition truthy (v : option jsstring) : option jsstring :=
  match v with
  | Some (u :: s) => Some (u :: s)
  | _ => None
  end.

End Js.

(** ** The [stringz] package

    [stringz] is an external dependency: its [length] counts, and its
    [substr] slices, the matches of a symbol expression against the
    string. *)

Module Stringz.
Import Js.

Definition isHighSurrogate (u : Z) : bool := (0xD800 <=? u) && (u <=? 0xDBFF).
Definition isLowSurrogate (u : Z) : bool := (0xDC00 <=? u) && (u <=? 0xDFFF).

(** Modelled from the spec: the symbol expression of [stringz] is not
    among the sources.  Lengths are measured in Unicode code points: a
    surrogate pair (a high surrogate immediately followed by a low one)
    is one symbol, every other code unit is a symbol of its own.
    [toArray(str)] is the list of the symbols of [str], in order.
    The expression of the package also takes a character together with
    a combining mark that follows it as one symbol, so on strings with
    combining marks the package counts fewer symbols than code points;
    [OverSymbols] has the routines over any symbol list, and
    [SymbolsWithMarks.toArray] is one that joins combining marks. *)
Fixpoint toArray (str : jsstring) : list jsstring :=
  match str with
  | [] => []
  | h :: t =>
      match t with
      | [] => [[h]]
      | l :: t' =>
          if isHighSurrogate h && isLowSurrogate l
          then [h; l] :: toArray t'
          else [h] :: toArray t
      end
  end.

(** [length(str)] *)
Definition length (str : jsstring) : Z := Z.of_nat (List.length (toArray str)).

(** [substr(str, begin, len)] *)
Definition substr (str : jsstring) (begin len : Z) : jsstring :=
  let strLength := length str in
  if strLength <=? begin then []
  else
    let begin := if begin <? 0 then begin + strLength else begin in
    let end_ := if 0 <=? len then len + begin else begin in
    concat (slice (toArray str) begin end_).

End Stringz.

(** ** Results of running code that may throw or fail to terminate *)

Inductive result (A : Type) : Type :=
| Ok (a : A)
| Throw (message : String.string)
| OutOfFuel.

Arguments Ok {A} a.
Arguments Throw {A} message.
Arguments OutOfFuel {A}.

Definition bind {A B : Type} (m : result A) (f : A -> result B) : result B :=
  match m with
  | Ok a => f a
  | Throw msg => Throw msg
  | OutOfFuel => OutOfFuel
  end.

Notation "'let*' x ':=' m 'in' k" := (bind m (fun x => k))
  (at level 10, x name, m at level 100, k at level 200).

(** ** The syntax tree, as far as the transformer touches it *)

Module ESTree.
Import Js.

Inductive LiteralValue : Type :=
| StringValue (s : jsstring)
| NumberValue (z : Z)
| BooleanValue (b : bool)
| NullValue.

Inductive Node : Type :=
| Literal (value : LiteralValue)
| BinaryExpression (operator : String.string) (left right : Node).

End ESTree.

(** [NodeFactory] and [NodeGuards], as far as they are used.  The [raw]
    text of a literal and the parent links that [NodeUtils.parentizeNode]
    and [NodeUtils.parentizeAst] maintain are not part of the tree
    value. *)

Module NodeFactory.
Import Js ESTree.

(** Modelled from the spec: [NodeFactory] is not among the sources.  A
    literal node carries its value. *)
Definition literalNode (value : jsstring) : Node := Literal (StringValue value).

(** Modelled from the spec: a binary expression node carries an
    operator token and its left and right operands. *)
Definition binaryExpressionNode (operator : String.string) (left right : Node)
  : Node := BinaryExpression operator left right.

End NodeFactory.

Module NodeGuards.
Import ESTree.

(** Modelled from the spec: [NodeGuards] is not among the sources.  The
    guard tests the kind tag of the node. *)
Definition isLiteralNode (node : Node) : bool :=
  match node with
  | Literal _ => true
  | _ => false
  end.

End NodeGuards.

(** ** [estraverse.replace] with an [enter] visitor

    [estraverse] is an external package.  Its [replace] calls [enter] on a
    node; when the callback returns a node, that node takes the place of
    the visited one ([element.ref.replace(target); element.node = target])
    and it is the children of the node now in place that are pushed on
    the work list, left before right.  The callback is therefore also run
    on the children of a replacement.  [replace] returns the resulting
    tree; here it also returns the nodes [enter] was called on, in
    order. *)

Module Estraverse.
Import ESTree.

(** The walk below [node]: the resulting tree and the nodes visited.
    The fuel bounds the depth of the walk. *)
Fixpoint replace_visits (fuel : nat) (enter : Node -> result (option Node))
  (node : Node) : result (Node * list Node) :=
  match fuel with
  | O => OutOfFuel
  | S fuel' =>
      let* target := enter node in
      let node' := match target with Some t => t | None => node end in
      match node' with
      | Literal _ => Ok (node', [node])
      | BinaryExpression operator lhs rhs =>
          let* l := replace_visits fuel' enter lhs in
          let* r := replace_visits fuel' enter rhs in
          Ok (BinaryExpression operator (fst l) (fst r),
              node :: snd l ++ snd r)
      end
  end.

(** [estraverse.replace(root, { enter })] *)
Definition replace (fuel : nat) (enter : Node -> result (option Node))
  (root : Node) : result Node :=
  let* r := replace_visits fuel enter root in Ok (fst r).

End Estraverse.

(** ** [SplitStringTransformer] *)

Module SplitStringTransformer.
Import Js ESTree.

Definition maxStringLengthForSecondPass : Z := 30000.
Definition firstPassChunkLength : Z := 1000.

(** The [for] loop of [chunkString].  [chunks[chunkIndex] = ...] always
    writes one past the last element ([chunkIndex] is the length of
    [chunks] at that point), which in JavaScript extends the array. *)
Fixpoint chunkString_loop (fuel : nat) (string : jsstring)
  (chunksCount : number) (chunkSize chunkIndex nextChunkStartIndex : Z)
  (chunks : list jsstring) : option (list jsstring) :=
  if lt (Fin chunkIndex) chunksCount then
    match fuel with
    | O => None
    | S fuel' =>
        chunkString_loop fuel' string chunksCount chunkSize
          (chunkIndex + 1) (nextChunkStartIndex + chunkSize)
          (chunks ++ [Stringz.substr string nextChunkStartIndex chunkSize])
    end
  else Some chunks.

(** [chunkString(string, stringLength, chunkSize)]; [None] when the fuel
    does not suffice.  With an infinite or NaN [chunkSize] the quotient is
    a zero or NaN, the loop test fails at once and the body never runs. *)
Definition chunkString (fuel : nat) (string : jsstring) (stringLength : Z)
  (chunkSize : number) : option (list jsstring) :=
  match chunkSize with
  | Fin k =>
      chunkString_loop fuel string (Math_ceil_div stringLength k) k 0 0 []
  | PosInf | NegInf | NaN => Some []
  end.

(** [transformStringChunksToBinaryExpressionNode(chunks)]: what it returns
    or throws, and the array [chunks] as the two [shift] calls leave it. *)
Definition transformStringChunksToBinaryExpressionNode (chunks : list jsstring)
  : result Node * list jsstring :=
  let (firstChunk, chunks1) := shift chunks in
  let (secondChunk, chunks2) := shift chunks1 in
  match truthy firstChunk, truthy secondChunk with
  | Some first, Some second =>
      let initialBinaryExpressionNode :=
        NodeFactory.binaryExpressionNode "+"%string
          (NodeFactory.literalNode first) (NodeFactory.literalNode second) in
      (Ok (fold_left
             (fun binaryExpressionNode chunk =>
                NodeFactory.binaryExpressionNode "+"%string binaryExpressionNode
                  (NodeFactory.literalNode chunk))
             chunks2 initialBinaryExpressionNode),
       chunks2)
  | _, _ =>
      (Throw "First and second chunks values should not be empty"%string, chunks2)
  end.

(** Modelled from the spec: [NodeLiteralUtils.isStringLiteralNode] is
    not among the sources.  Only string-valued literal nodes are
    candidates; the value is returned along with the answer. *)
Definition isStringLiteralNode (node : Node) : option jsstring :=
  match node with
  | Literal (StringValue value) => Some value
  | _ => None
  end.

(** [transformLiteralNodeByChunkLength(literalNode, chunkLength)].  The
    second component of the returned pair is the very array that was
    handed to the builder, so it comes back without its first two
    elements. *)
Definition transformLiteralNodeByChunkLength (fuel : nat) (literalNode : Node)
  (chunkLength : number) : result (Node * list jsstring) :=
  match isStringLiteralNode literalNode with
  | None => Ok (literalNode, [])
  | Some value =>
      let valueLength := Stringz.length value in
      if ge chunkLength (Fin valueLength) then Ok (literalNode, [])
      else
        match chunkString fuel value valueLength chunkLength with
        | None => OutOfFuel
        | Some stringChunks =>
            let (built, stringChunks') :=
              transformStringChunksToBinaryExpressionNode stringChunks in
            let* resultNode := built in
            Ok (resultNode, stringChunks')
        end
  end.

Section Transformer.

(** [this.options.splitStringsChunkLength] *)
Variable splitStringsChunkLength : Z.

(** [NodeLiteralUtils.isProhibitedLiteralNode], the external eligibility
    predicate. *)
Variable isProhibitedLiteralNode : Node -> Node -> bool.

(** The constants [isLargeString] and [minSecondPathChunkLength] of
    [transformNode], as functions of the recorded [stringChunksCount]. *)
Definition isLargeString (stringChunksCount : Z) : bool :=
  maxStringLengthForSecondPass / firstPassChunkLength <=? stringChunksCount.

Definition minSecondPathChunkLength (stringChunksCount : Z) : number :=
  if isLargeString stringChunksCount
  then Math_floor_div stringChunksCount splitStringsChunkLength
  else Fin splitStringsChunkLength.

(** The [enter] callback of pass #2. *)
Definition secondPassEnter (fuel : nat) (chunkLength : number) (node : Node)
  : result (option Node) :=
  if NodeGuards.isLiteralNode node then
    let* r := transformLiteralNodeByChunkLength fuel node chunkLength in
    Ok (Some (fst r))
  else Ok None.

(** Pass #1 and the sizing of pass #2: the first-pass tree, the recorded
    [stringChunksCount] and the chunk length of the second pass. *)
Definition firstPass (fuel : nat) (literalNode : Node)
  : result (Node * Z * number) :=
  let* r := transformLiteralNodeByChunkLength fuel literalNode
              (Fin firstPassChunkLength) in
  let stringChunksCount := Z.of_nat (List.length (snd r)) in
  Ok (fst r, stringChunksCount, minSecondPathChunkLength stringChunksCount).

(** [transformNode(literalNode, parentNode)] *)
Definition transformNode (fuel : nat) (literalNode parentNode : Node)
  : result Node :=
  if isProhibitedLiteralNode literalNode parentNode then Ok literalNode
  else
    let* p := firstPass fuel literalNode in
    let '(firstPassChunksNode, _, chunkLength) := p in
    Estraverse.replace fuel (secondPassEnter fuel chunkLength)
      firstPassChunksNode.

End Transformer.

End SplitStringTransformer.

(** ** The chunking routine over the symbols of [stringz] as a parameter

    [stringz] is an external package.  Its [length] and [substr] are
    defined from the list of the matches of its symbol expression
    against the string ([str.match(...)]); here that list is a parameter
    [toArray], and [chunkString] and
    [transformLiteralNodeByChunkLength] are the routines of
    [SplitStringTransformer] over it.  With [Stringz.toArray] for the
    parameter these are the definitions above. *)

Module OverSymbols.
Import Js.

Section Symbols.

Variable toArray : jsstring -> list jsstring.

(** [stringz.length(str)] *)
Definition length (str : jsstring) : Z := Z.of_nat (List.length (toArray str)).

(** [stringz.substr(str, begin, len)] *)
Definition substr (str : jsstring) (begin len : Z) : jsstring :=
  let strLength := length str in
  if strLength <=? begin then []
  else
    let begin := if begin <? 0 then begin + strLength else begin in
    let end_ := if 0 <=? len then len + begin else begin in
    concat (slice (toArray str) begin end_).

(** The [for] loop of [chunkString]. *)
Fixpoint chunkString_loop (fuel : nat) (string : jsstring)
  (chunksCount : number) (chunkSize chunkIndex nextChunkStartIndex : Z)
  (chunks : list jsstring) : option (list jsstring) :=
  if lt (Fin chunkIndex) chunksCount then
    match fuel with
    | O => None
    | S fuel' =>
        chunkString_loop fuel' string chunksCount chunkSize
          (chunkIndex + 1) (nextChunkStartIndex + chunkSize)
          (chunks ++ [substr string nextChunkStartIndex chunkSize])
    end
  else Some chunks.

(** [chunkString(string, stringLength, chunkSize)] *)
Definition chunkString (fuel : nat) (string : jsstring) (stringLength : Z)
  (chunkSize : number) : option (list jsstring) :=
  match chunkSize with
  | Fin k =>
      chunkString_loop fuel string (Math_ceil_div stringLength k) k 0 0 []
  | PosInf | NegInf | NaN => Some []
  end.

(** [transformLiteralNodeByChunkLength(literalNode, chunkLength)] *)
Definition transformLiteralNodeByChunkLength (fuel : nat)
  (literalNode : ESTree.Node) (chunkLength : number)
  : result (ESTree.Node * list jsstring) :=
  match SplitStringTransformer.isStringLiteralNode literalNode with
  | None => Ok (literalNode, [])
  | Some value =>
      let valueLength := length value in
      if ge chunkLength (Fin valueLength) then Ok (literalNode, [])
      else
        match chunkString fuel value valueLength chunkLength with
        | None => OutOfFuel
        | Some stringChunks =>
            let (built, stringChunks') :=
              SplitStringTransformer.transformStringChunksToBinaryExpressionNode
                stringChunks in
            let* resultNode := built in
            Ok (resultNode, stringChunks')
        end
  end.

End Symbols.

End OverSymbols.

(** A symbol list that joins combining marks.  The symbol expression of
    [stringz] matches, besides a surrogate pair, a character outside the
    surrogate range together with a combining mark that follows it.
    [toArray] below does so for the combining diacritical marks U+0300
    to U+036F; the further alternatives of the package's expression
    (variation selectors, joiner sequences, flags) are left out. *)

Module SymbolsWithMarks.
Import Js Stringz.

Definition isSurrogate (u : Z) : bool := (0xD800 <=? u) && (u <=? 0xDFFF).
Definition isCombiningMark (u : Z) : bool := (0x0300 <=? u) && (u <=? 0x036F).

(** The two code units are one symbol. *)
Definition joined (h l : Z) : bool :=
  (isHighSurrogate h && isLowSurrogate l)
  || (negb (isSurrogate h) && isCombiningMark l).

Fixpoint toArray (str : jsstring) : list jsstring :=
  match str with
  | [] => []
  | h :: t =>
      match t with
      | [] => [[h]]
      | l :: t' =>
          if joined h l then [h; l] :: toArray t' else [h] :: toArray t
      end
  end.

End SymbolsWithMarks.

(** ** [SplitStringTransformer.getVisitor] *)

Module SplitStringVisitor.
Import ESTree SplitStringTransformer.

(** Modelled from the spec: the enumeration [NodeTransformationStage] is
    not among the sources.  A stage is one value of a fixed, ordered
    enumeration; [getVisitor] only tells [Converting] from the others. *)
Inductive NodeTransformationStage : Type :=
| Initializing
| Preparing
| Converting
| Finalizing.

(** An [IVisitor] with a [leave] callback only: the node and its parent
    (or [null]) to a replacement node or [undefined]. *)
Record IVisitor : Type := {
  leave : nat -> Node -> option Node -> result (option Node)
}.

Section Visitor.

(** [this.options.splitStrings], [this.options.splitStringsChunkLength] *)
Variable splitStrings : bool.
Variable splitStringsChunkLength : Z.

Variable isProhibitedLiteralNode : Node -> Node -> bool.

(** [getVisitor(nodeTransformationStage)] *)
Definition getVisitor (nodeTransformationStage : NodeTransformationStage)
  : option IVisitor :=
  if negb splitStrings then None
  else
    match nodeTransformationStage with
    | Converting =>
        Some {| leave := fun fuel node parentNode =>
                  match parentNode with
                  | Some parent =>
                      if NodeGuards.isLiteralNode node then
                        let* replacement :=
                          transformNode splitStringsChunkLength
                            isProhibitedLiteralNode fuel node parent in
                        Ok (Some replacement)
                      else Ok None
                  | None => Ok None
                  end |}
    | _ => None
    end.

End Visitor.

End SplitStringVisitor.

(** ** [JavaScriptObfuscatorInternal]

    The run orchestrator calls into code that is not part of it: the
    parser, tree utilities, the custom-node storage (its constructor and
    its [initialize]), the stack-trace analyzer, the obfuscator with all
    its passes, the code generator and the source-map corrector.  A
    constructor that is applied in the same expression as the method
    called on the new object is part of the call of that method.  They are collected in [Externals].  Each of
    them may read and advance the process-wide random generator that
    [Utils.setRandomGenerator] installs, and may throw; nothing else of
    the process state is visible to them. *)

Module JavaScriptObfuscatorInternal.

(** The calls [obfuscate] makes, in the order it makes them. *)
Inductive Call : Type :=
| SetRandomGenerator (seed : Z)
| EsprimaParse
| Parentize
| NewCustomNodesStorage
| Analyze
| InitializeStorage
| ObfuscateAstTree
| EscodegenGenerate
| Correct.

(** [escodegen.GenerateOptions], the fields that are set. *)
Record GenerateOptions : Type := {
  verbatim : String.string;
  sourceMapWithCode : bool;
  sourceMapOption : option String.string;
  sourceContent : option String.string;
  formatCompact : option bool
}.

Definition escodegenParams : GenerateOptions := {|
  verbatim := "x-verbatim-property"%string;
  sourceMapWithCode := true;
  sourceMapOption := None;
  sourceContent := None;
  formatCompact := None
|}.

(** [esprimaParams]: [{ loc: true }]. *)
Definition esprimaParams : bool := true.

(** [IGeneratorOutput] after [generateCode]: both fields are strings. *)
Record IGeneratorOutput : Type := {
  code : String.string;
  map : String.string
}.

Record Externals : Type := {
  IOptions : Type;
  seed : IOptions -> Z;
  sourceMap : IOptions -> bool;
  compact : IOptions -> bool;
  sourceMapBaseUrl : IOptions -> String.string;
  sourceMapFileName : IOptions -> String.string;
  SourceMapMode : Type;
  sourceMapMode : IOptions -> SourceMapMode;

  RandomGenerator : Type;
  Chance : Z -> RandomGenerator;

  Program : Type;
  StackTraceData : Type;
  CustomNodesStorage : Type;
  RawSourceMap : Type;
  IObfuscationResult : Type;

  esprima_parse :
    String.string -> bool ->
    RandomGenerator -> option Program * RandomGenerator;
  NodeUtils_parentize :
    Program -> RandomGenerator -> option Program * RandomGenerator;
  StackTraceAnalyzer_analyze :
    Program -> RandomGenerator -> option StackTraceData * RandomGenerator;
  CustomNodesStorage_new :
    IOptions -> RandomGenerator -> option CustomNodesStorage * RandomGenerator;
  CustomNodesStorage_initialize :
    CustomNodesStorage -> StackTraceData ->
    RandomGenerator -> option CustomNodesStorage * RandomGenerator;
  Obfuscator_obfuscateAstTree :
    IOptions -> Program -> CustomNodesStorage ->
    RandomGenerator -> option Program * RandomGenerator;
  escodegen_generate :
    Program -> GenerateOptions ->
    RandomGenerator ->
    option (String.string * option RawSourceMap) * RandomGenerator;
  RawSourceMap_toString : RawSourceMap -> String.string;
  SourceMapCorrector_correct :
    String.string -> String.string -> String.string -> SourceMapMode ->
    RandomGenerator -> option IObfuscationResult * RandomGenerator
}.

Section Run.

Variable E : Externals.

(** A computation over the random generator that may throw ([None]) and
    that records the calls made. *)
Definition Run (A : Type) : Type :=
  RandomGenerator E -> option A * RandomGenerator E * list Call.

Definition ret {A : Type} (a : A) : Run A := fun g => (Some a, g, []).

Definition andThen {A B : Type} (m : Run A) (k : A -> Run B) : Run B :=
  fun g =>
    match m g with
    | (Some a, g', calls) =>
        match k a g' with
        | (b, g'', calls') => (b, g'', calls ++ calls')
        end
    | (None, g', calls) => (None, g', calls)
    end.

(** A call into external code. *)
Definition external {A : Type} (call : Call)
  (f : RandomGenerator E -> option A * RandomGenerator E) : Run A :=
  fun g => match f g with (a, g') => (a, g', [call]) end.

(** [Utils.setRandomGenerator(new Chance(seed))] *)
Definition setRandomGenerator (seedValue : Z) : Run unit :=
  fun _ => (Some tt, Chance E seedValue, [SetRandomGenerator seedValue]).

Local Notation "'do' x '<-' m ';' k" := (andThen m (fun x => k))
  (at level 10, x name, m at level 100, k at level 200).

Definition generateCode (options : IOptions E) (sourceCode : String.string)
  (astTree : Program E) : Run IGeneratorOutput :=
  let params := escodegenParams in
  let params :=
    if sourceMap E options
    then {| verbatim := verbatim params;
            sourceMapWithCode := sourceMapWithCode params;
            sourceMapOption := Some "sourceMap"%string;
            sourceContent := Some sourceCode;
            formatCompact := formatCompact params |}
    else params in
  let params :=
    {| verbatim := verbatim params;
       sourceMapWithCode := sourceMapWithCode params;
       sourceMapOption := sourceMapOption params;
       sourceContent := sourceContent params;
       formatCompact := Some (compact E options) |} in
  do generatorOutput <-
    external EscodegenGenerate (escodegen_generate E astTree params);
  ret {| code := fst generatorOutput;
         map := match snd generatorOutput with
                | Some m => RawSourceMap_toString E m
                | None => ""%string
                end |}.

Definition getObfuscationResult (options : IOptions E)
  (generatorOutput : IGeneratorOutput) : Run (IObfuscationResult E) :=
  external Correct
    (SourceMapCorrector_correct E
       (code generatorOutput) (map generatorOutput)
       (String.append (sourceMapBaseUrl E options)
          (sourceMapFileName E options))
       (sourceMapMode E options)).

Definition obfuscate (options : IOptions E) (sourceCode : String.string)
  : Run (IObfuscationResult E) :=
  do _ <- (if seed E options =? 0 then ret tt
           else setRandomGenerator (seed E options));
  do astTree <-
    external EsprimaParse (esprima_parse E sourceCode esprimaParams);
  do astTree <- external Parentize (NodeUtils_parentize E astTree);
  do customNodesStorage <-
    external NewCustomNodesStorage (CustomNodesStorage_new E options);
  do stackTraceData <-
    external Analyze (StackTraceAnalyzer_analyze E astTree);
  do customNodesStorage <-
    external InitializeStorage
      (CustomNodesStorage_initialize E customNodesStorage stackTraceData);
  do obfuscatedAstTree <-
    external ObfuscateAstTree
      (Obfuscator_obfuscateAstTree E options astTree customNodesStorage);
  do generatorOutput <- generateCode options sourceCode obfuscatedAstTree;
  getObfuscationResult options generatorOutput.

End Run.

Definition isSetRandomGenerator (call : Call) : bool :=
  match call with
  | SetRandomGenerator _ => true
  | _ => false
  end.

(** A small instance of the external code, for concrete runs: the
    options are the seed, the generator is a counter that the obfuscator
    reads and advances, and the obfuscated program carries the value that
    was read. *)
Definition counterExternals : Externals := {|
  IOptions := Z;
  seed := fun options => options;
  sourceMap := fun _ => false;
  compact := fun _ => true;
  sourceMapBaseUrl := fun _ => ""%string;
  sourceMapFileName := fun _ => ""%string;
  SourceMapMode := unit;
  sourceMapMode := fun _ => tt;
  RandomGenerator := Z;
  Chance := fun seedValue => seedValue;
  Program := String.string * Z;
  StackTraceData := unit;
  CustomNodesStorage := unit;
  RawSourceMap := unit;
  IObfuscationResult := String.string * Z;
  esprima_parse := fun sourceCode _ g => (Some (sourceCode, 0), g);
  NodeUtils_parentize := fun astTree g => (Some astTree, g);
  StackTraceAnalyzer_analyze := fun _ g => (Some tt, g);
  CustomNodesStorage_new := fun _ g => (Some tt, g);
  CustomNodesStorage_initialize := fun storage _ g => (Some storage, g);
  Obfuscator_obfuscateAstTree :=
    fun _ astTree _ g => (Some (fst astTree, g), g + 1);
  escodegen_generate := fun astTree _ g => (Some (fst astTree, None), g);
  RawSourceMap_toString := fun _ => ""%string;
  SourceMapCorrector_correct :=
    fun generatedCode _ _ _ g => (Some (generatedCode, g), g)
|}.

End JavaScriptObfuscatorInternal.

(** ** Auxiliary notions used to state the properties *)

Module Symbols.
Import Js Stringz.

(** The first code unit of the first symbol is a low surrogate. *)
Definition startsLow (symbols : list jsstring) : bool :=
  match symbols with
  | (l :: _) :: _ => isLowSurrogate l
  | _ => false
  end.

(** A list of symbols as [toArray] produces them: surrogate pairs and
    single code units, where a single high surrogate is never directly
    followed by a low one. *)
Inductive wellFormed : list jsstring -> Prop :=
| wf_nil : wellFormed []
| wf_pair h l rest :
    isHighSurrogate h = true -> isLowSurrogate l = true ->
    wellFormed rest -> wellFormed ([h; l] :: rest)
| wf_single u rest :
    isHighSurrogate u && startsLow rest = false ->
    wellFormed rest -> wellFormed ([u] :: rest).

(** [n] groups of [k] consecutive symbols each (the last ones shorter or
    empty when the symbols run out). *)
Fixpoint chunksOf (n k : nat) (symbols : list jsstring)
  : list (list jsstring) :=
  match n with
  | O => []
  | S n' => firstn k symbols :: chunksOf n' k (skipn k symbols)
  end.

(** The boundary between [before] and [after] lies inside a surrogate
    pair. *)
Definition splitsSurrogatePair (before after : jsstring) : Prop :=
  exists a h l b,
    before = a ++ [h] /\ after = l :: b /\
    isHighSurrogate h = true /\ isLowSurrogate l = true.

Definition sumZ (l : list Z) : Z := fold_right Z.add 0 l.

(** The integer that [Math_ceil_div] computes for a non-zero divisor. *)
Definition ceiling (a b : Z) : Z := - ((- a) / b).

(** The chunks of [str] for chunk length [k]: [ceiling L k] groups of [k]
    symbols, each flattened to a string. *)
Definition chunkPlan (str : jsstring) (k : Z) : list jsstring :=
  map (@concat Z)
    (chunksOf (Z.to_nat (ceiling (Stringz.length str) k)) (Z.to_nat k)
       (toArray str)).

End Symbols.

Module Trees.
Import Js ESTree Symbols.

(** The value of a concatenation expression over string literals. *)
Fixpoint evaluate (node : Node) : option jsstring :=
  match node with
  | Literal (StringValue s) => Some s
  | Literal _ => None
  | BinaryExpression operator lhs rhs =>
      if String.eqb operator "+"%string then
        match evaluate lhs, evaluate rhs with
        | Some l, Some r => Some (l ++ r)
        | _, _ => None
        end
      else None
  end.

(** The string literals at the leaves of a tree, left to right. *)
Fixpoint leaves (node : Node) : list Node :=
  match node with
  | Literal _ => [node]
  | BinaryExpression _ lhs rhs => leaves lhs ++ leaves rhs
  end.

(** One more chunk literal added on the right of a concatenation. *)
Definition extend (expression : Node) (chunk : jsstring) : Node :=
  BinaryExpression "+"%string expression (Literal (StringValue chunk)).

(** The tree a split of [str] with chunk length [k] builds from its chunk
    plan; the literal itself when the plan has fewer than two chunks. *)
Definition splitTree (str : jsstring) (k : Z) : Node :=
  match chunkPlan str k with
  | first :: second :: rest =>
      fold_left extend rest
        (BinaryExpression "+"%string (Literal (StringValue first))
           (Literal (StringValue second)))
  | _ => Literal (StringValue str)
  end.

(** The tree with every string literal longer than [k] code points
    replaced by its split, once. *)
Fixpoint splitLeaves (k : Z) (node : Node) : Node :=
  match node with
  | Literal (StringValue s) =>
      if Stringz.length s <=? k then node else splitTree s k
  | Literal _ => node
  | BinaryExpression operator lhs rhs =>
      BinaryExpression operator (splitLeaves k lhs) (splitLeaves k rhs)
  end.

Fixpoint height (node : Node) : nat :=
  match node with
  | Literal _ => O
  | BinaryExpression _ lhs rhs => S (Nat.max (height lhs) (height rhs))
  end.

(** All the nodes of a tree, parents before children, left before
    right. *)
Fixpoint preorder (node : Node) : list Node :=
  match node with
  | Literal _ => [node]
  | BinaryExpression _ lhs rhs => node :: preorder lhs ++ preorder rhs
  end.

(** The message of the error the builder throws. *)
Definition emptyChunksMessage : String.string :=
  "First and second chunks values should not be empty"%string.

(** Every leaf of the tree is returned unchanged, with no chunks, by a
    split with chunk length [K]. *)
Definition settled (F : nat) (K : number) (tree : Node) : Prop :=
  forall leaf, In leaf (leaves tree) ->
    SplitStringTransformer.transformLiteralNodeByChunkLength F leaf K
    = Ok (leaf, []).

(** A string of [n] copies of the letter a. *)
Definition letters (n : Z) : jsstring := repeat 97 (Z.to_nat n).

End Trees.

Module Segmentation.
Import Js Symbols.

(** What the chunking routine needs of the symbols of [stringz]: they
    cover the string, none is empty, a run of consecutive symbols of a
    string reads back as the same symbols, and no symbol boundary lies
    inside a surrogate pair. *)
Record SymbolSegmentation (toArray : jsstring -> list jsstring) : Prop := {
  symbols_concat : forall s, concat (toArray s) = s;
  symbols_nonempty :
    forall s, Forall (fun symbol => symbol <> []) (toArray s);
  symbols_stable :
    forall s b k,
      toArray (concat (firstn k (skipn b (toArray s))))
      = firstn k (skipn b (toArray s));
  symbols_pairs :
    forall s before after,
      toArray s = before ++ after ->
      ~ splitsSurrogatePair (concat before) (concat after)
}.

(** The symbols of [str] in [n] groups of [k], each flattened. *)
Definition chunkPlanOver (toArray : jsstring -> list jsstring)
  (str : jsstring) (n k : Z) : list jsstring :=
  map (@concat Z) (chunksOf (Z.to_nat n) (Z.to_nat k) (toArray str)).

(** The first code unit of the first symbol joins [u]. *)
Definition joinsNext (u : Z) (symbols : list jsstring) : bool :=
  match symbols with
  | (l :: _) :: _ => SymbolsWithMarks.joined u l
  | _ => false
  end.

(** A list of symbols as [SymbolsWithMarks.toArray] produces them:
    joined pairs and single code units, where a single code unit is
    never directly followed by one it joins. *)
Inductive markForm : list jsstring -> Prop :=
| mf_nil : markForm []
| mf_pair h l rest :
    SymbolsWithMarks.joined h l = true ->
    markForm rest -> markForm ([h; l] :: rest)
| mf_single u rest :
    joinsNext u rest = false ->
    markForm rest -> markForm ([u] :: rest).

(** The letter e, a combining acute accent, the letter x. *)
Definition accented : jsstring := [0x65; 0x301; 0x78].

End Segmentation.

Module Pipeline.
Import JavaScriptObfuscatorInternal.

(** The external calls of a complete run, after the optional reseeding. *)
Definition pipeline : list Call :=
  [EsprimaParse; Parentize; NewCustomNodesStorage; Analyze;
   InitializeStorage; ObfuscateAstTree; EscodegenGenerate; Correct].

(** The reseeding call of a run with the given seed, if there is one. *)
Definition reseeding (seedValue : Z) : list Call :=
  if seedValue =? 0 then [] else [SetRandomGenerator seedValue].

(** The generator the first external call of a run is given. *)
Definition firstGenerator (E : Externals) (seedValue : Z)
  (g : RandomGenerator E) : RandomGenerator E :=
  if seedValue =? 0 then g else Chance E seedValue.

(** The options [generateCode] hands to the generator: the static
    parameters, the source map settings when [sourceMap] is set, and the
    [compact] format. *)
Definition generateOptions (E : Externals) (options : IOptions E)
  (sourceCode : String.string) : GenerateOptions :=
  {| verbatim := "x-verbatim-property"%string;
     sourceMapWithCode := true;
     sourceMapOption :=
       if sourceMap E options then Some "sourceMap"%string else None;
     sourceContent := if sourceMap E options then Some sourceCode else None;
     formatCompact := Some (compact E options) |}.

(** The map text of the generator output: [map.toString()], or the empty
    string when the generator gave no map. *)
Definition mapText (E : Externals) (rawMap : option (RawSourceMap E))
  : String.string :=
  match rawMap with
  | Some m => RawSourceMap_toString E m
  | None => ""%string
  end.

(** An instance of the external code whose parser rejects the empty
    source text after advancing the generator, for concrete runs. *)
Definition strictExternals : Externals := {|
  IOptions := Z;
  seed := fun options => options;
  sourceMap := fun _ => true;
  compact := fun _ => true;
  sourceMapBaseUrl := fun _ => ""%string;
  sourceMapFileName := fun _ => ""%string;
  SourceMapMode := unit;
  sourceMapMode := fun _ => tt;
  RandomGenerator := Z;
  Chance := fun seedValue => seedValue;
  Program := String.string;
  StackTraceData := unit;
  CustomNodesStorage := unit;
  RawSourceMap := unit;
  IObfuscationResult := String.string * String.string;
  esprima_parse :=
    fun sourceCode _ g =>
      if String.eqb sourceCode ""%string then (None, g + 1)
      else (Some sourceCode, g);
  NodeUtils_parentize := fun astTree g => (Some astTree, g);
  StackTraceAnalyzer_analyze := fun _ g => (Some tt, g);
  CustomNodesStorage_new := fun _ g => (Some tt, g);
  CustomNodesStorage_initialize := fun storage _ g => (Some storage, g);
  Obfuscator_obfuscateAstTree := fun _ astTree _ g => (Some astTree, g + 1);
  escodegen_generate := fun astTree _ g => (Some (astTree, Some tt), g);
  RawSourceMap_toString := fun _ => "{}"%string;
  SourceMapCorrector_correct :=
    fun generatedCode generatedMap _ _ g =>
      (Some (generatedCode, generatedMap), g)
|}.

End Pipeline.

Module Sizing.
Import Js ESTree Symbols Trees SplitStringTransformer.

(** The chunk length of the second pass for a string of code-point
    length [len], when the target chunk length is at least 1: the target
    itself up to 31000 code points, the floor of the recorded count by
    the target beyond. *)
Definition secondPassLength (target len : Z) : Z :=
  if len <=? 31000 then target
  else (ceiling len firstPassChunkLength - 2) / target.

(** The tree the first pass returns. *)
Definition firstPassTree (str : jsstring) : Node :=
  if Stringz.length str <=? firstPassChunkLength
  then Literal (StringValue str)
  else splitTree str firstPassChunkLength.

End Sizing.

(** * Properties *)

(** ** Symbols and [stringz] *)

Module StringzFacts.
Import Js Stringz Symbols.

Lemma toArray_ind (P : jsstring -> list jsstring -> Prop) :
  P [] [] ->
  (forall h, P [h] [[h]]) ->
  (forall h l t, isHighSurrogate h && isLowSurrogate l = true ->
                 P t (toArray t) -> P (h :: l :: t) ([h; l] :: toArray t)) ->
  (forall h l t, isHighSurrogate h && isLowSurrogate l = false ->
                 P (l :: t) (toArray (l :: t)) ->
                 P (h :: l :: t) ([h] :: toArray (l :: t))) ->
  forall s, P s (toArray s).
Proof.
  intros Hnil Hone Hpair Hsingle s.
  assert (H : forall n s, (List.length s <= n)%nat -> P s (toArray s)).
  { induction n as [|n IH]; intros [|h [|l t]] Hlen; simpl in Hlen;
      try exact Hnil; try apply Hone; try lia.
    change (toArray (h :: l :: t))
      with (if isHighSurrogate h && isLowSurrogate l
            then [h; l] :: toArray t else [h] :: toArray (l :: t)).
    destruct (isHighSurrogate h && isLowSurrogate l) eqn:E.
    - apply Hpair; [exact E | apply IH; lia].
    - apply Hsingle; [exact E | apply IH; simpl; lia]. }
  apply (H (List.length s)); lia.
Qed.

Lemma toArray_concat (s : jsstring) : concat (toArray s) = s.
Proof.
  apply (toArray_ind (fun s r => concat r = s)); simpl; intros;
    try reflexivity; congruence.
Qed.

Lemma toArray_wellFormed (s : jsstring) : wellFormed (toArray s).
Proof.
  apply (toArray_ind (fun _ r => wellFormed r)).
  - constructor.
  - intros h. constructor; [apply andb_false_r | constructor].
  - intros h l t E IH. apply andb_prop in E as [Hh Hl].
    constructor; assumption.
  - intros h l t E IH. constructor; [| exact IH].
    destruct t as [|l' t']; simpl; [exact E |].
    destruct (isHighSurrogate l && isLowSurrogate l'); exact E.
Qed.

Lemma wellFormed_nonempty (l : list jsstring) :
  wellFormed l -> Forall (fun symbol => symbol <> []) l.
Proof. induction 1; constructor; auto; discriminate. Qed.

Lemma concat_nil_nonempty (l : list jsstring) :
  Forall (fun symbol => symbol <> []) l -> concat l = [] -> l = [].
Proof.
  destruct 1 as [|x l Hx _]; [reflexivity |].
  simpl. destruct x; [contradiction | discriminate].
Qed.

Lemma startsLow_concat (l : list jsstring) (u : Z) (s : jsstring) :
  wellFormed l -> concat l = u :: s -> startsLow l = isLowSurrogate u.
Proof.
  intros Hwf. destruct Hwf; simpl; intros E; congruence.
Qed.

Lemma high_not_low (u : Z) :
  isHighSurrogate u = true -> isLowSurrogate u = true -> False.
Proof. unfold isHighSurrogate, isLowSurrogate. lia. Qed.

(** Re-reading the code units of well-formed symbols gives the same
    symbols. *)
Lemma toArray_of_wellFormed (l : list jsstring) :
  wellFormed l -> toArray (concat l) = l.
Proof.
  induction 1 as [|h l rest Hh Hl Hwf IH|u rest Hu Hwf IH].
  - reflexivity.
  - simpl. rewrite Hh, Hl. simpl. now rewrite IH.
  - simpl. destruct (concat rest) as [|x t] eqn:E.
    + apply concat_nil_nonempty in E;
        [subst; reflexivity | now apply wellFormed_nonempty].
    + rewrite (startsLow_concat rest x t Hwf E) in Hu. rewrite Hu.
      now rewrite IH.
Qed.

Lemma wellFormed_skipn (k : nat) (l : list jsstring) :
  wellFormed l -> wellFormed (skipn k l).
Proof.
  intros Hwf. revert k.
  induction Hwf; intros [|k]; simpl; auto; constructor; auto.
Qed.

Lemma startsLow_firstn (k : nat) (l : list jsstring) (b : bool) :
  b && startsLow l = false -> b && startsLow (firstn k l) = false.
Proof.
  destruct k, l; simpl; auto using andb_false_r.
Qed.

Lemma wellFormed_firstn (k : nat) (l : list jsstring) :
  wellFormed l -> wellFormed (firstn k l).
Proof.
  intros Hwf. revert k.
  induction Hwf; intros [|k]; simpl; try constructor; auto.
  now apply startsLow_firstn.
Qed.

(** The code-point length of a run of symbols of a string. *)
Lemma length_concat_wellFormed (l : list jsstring) :
  wellFormed l -> Stringz.length (concat l) = Z.of_nat (List.length l).
Proof.
  intros Hwf. unfold Stringz.length. now rewrite toArray_of_wellFormed.
Qed.

(** [substr] from a non-negative start, on the symbols. *)
Lemma substr_symbols (s : jsstring) (b k : Z) :
  0 <= b -> 0 <= k ->
  substr s b k
  = concat (firstn (Z.to_nat k) (skipn (Z.to_nat b) (toArray s))).
Proof.
  intros Hb Hk.
  assert (E1 : (b <? 0) = false) by (apply Z.ltb_ge; lia).
  assert (E2 : (0 <=? k) = true) by (apply Z.leb_le; lia).
  assert (E3 : (k + b <? 0) = false) by (apply Z.ltb_ge; lia).
  unfold substr, Stringz.length. set (arr := toArray s).
  destruct (Z.leb_spec (Z.of_nat (List.length arr)) b) as [Hle|Hlt].
  - rewrite skipn_all2 by lia. now rewrite firstn_nil.
  - rewrite E1, E2. unfold slice. rewrite E1, E3.
    rewrite (Z.min_l b) by lia.
    destruct (Z.le_ge_cases (k + b) (Z.of_nat (List.length arr))) as [H|H].
    + rewrite Z.min_l by lia. now replace (k + b - b) with k by lia.
    + rewrite Z.min_r by lia.
      rewrite !firstn_all2; [reflexivity | |]; rewrite length_skipn; lia.
Qed.

(** A boundary between two runs of well-formed symbols is never inside a
    surrogate pair. *)
Lemma wellFormed_boundary (A B : list jsstring) :
  wellFormed (A ++ B) ->
  isHighSurrogate (last (concat A) 0) = true -> startsLow B = false.
Proof.
  induction A as [|seg A IH]; simpl; intros Hwf Hlast.
  - discriminate.
  - inversion Hwf as [|h l rest Hh Hl Hrest|u rest Hu Hrest]; subst;
      destruct (concat A) as [|x t] eqn:E; simpl in Hlast.
    + exfalso. exact (high_not_low l Hlast Hl).
    + apply IH; auto.
    + apply concat_nil_nonempty in E.
      * subst. simpl in Hu. now rewrite Hlast in Hu.
      * apply wellFormed_nonempty in Hrest.
        apply Forall_app in Hrest. tauto.
    + apply IH; auto.
Qed.

Lemma wellFormed_app_r (A B : list jsstring) :
  wellFormed (A ++ B) -> wellFormed B.
Proof.
  induction A as [|seg A IH]; simpl; [auto |].
  inversion 1; auto.
Qed.

Lemma wellFormed_no_split (A B : list jsstring) :
  wellFormed (A ++ B) -> ~ splitsSurrogatePair (concat A) (concat B).
Proof.
  intros Hwf (a & h & l & b & Ea & Eb & Hh & Hl).
  assert (HB : wellFormed B) by (eapply wellFormed_app_r; eauto).
  pose proof (wellFormed_boundary A B Hwf) as H.
  rewrite Ea, last_last in H. specialize (H Hh).
  rewrite (startsLow_concat B l b HB Eb) in H. congruence.
Qed.

Lemma toArray_repeat (u : Z) (n : nat) :
  isHighSurrogate u = false -> toArray (repeat u n) = repeat [u] n.
Proof.
  intros Hu. induction n as [|n IH]; [reflexivity |].
  change (repeat u (S n)) with (u :: repeat u n).
  destruct n as [|n]; [reflexivity |].
  change (repeat u (S n)) with (u :: repeat u n) in *.
  change (toArray (u :: u :: repeat u n))
    with (if isHighSurrogate u && isLowSurrogate u
          then [u; u] :: toArray (repeat u n)
          else [u] :: toArray (u :: repeat u n)).
  rewrite Hu. simpl andb. cbv iota. now rewrite IH.
Qed.

Lemma length_letters (n : Z) :
  0 <= n -> Stringz.length (Trees.letters n) = n.
Proof.
  intros Hn. unfold Stringz.length, Trees.letters.
  rewrite toArray_repeat by reflexivity.
  rewrite repeat_length. lia.
Qed.

End StringzFacts.

(** ** The chunking routine *)

Module ChunkingFacts.
Import Js Stringz Symbols StringzFacts SplitStringTransformer.

Lemma ceiling_bounds (a b : Z) :
  0 < b -> (ceiling a b - 1) * b < a <= ceiling a b * b.
Proof.
  intros Hb. unfold ceiling.
  pose proof (Z.div_mod (- a) b ltac:(lia)) as E.
  pose proof (Z.mod_pos_bound (- a) b Hb) as R.
  nia.
Qed.

Lemma Math_ceil_div_ceiling (a b : Z) :
  b <> 0 -> Math_ceil_div a b = Fin (ceiling a b).
Proof.
  intros Hb. unfold Math_ceil_div.
  destruct (Z.eqb_spec b 0); [contradiction | reflexivity].
Qed.

Lemma firstn_add {A : Type} (a b : nat) (l : list A) :
  firstn (a + b) l = firstn a l ++ firstn b (skipn a l).
Proof.
  revert l. induction a as [|a IH]; intros [|x l]; simpl;
    rewrite ?firstn_nil; try reflexivity.
  now rewrite IH.
Qed.

Lemma concat_map_concat {A : Type} (ll : list (list (list A))) :
  concat (map (@concat A) ll) = concat (concat ll).
Proof.
  induction ll as [|l ll IH]; simpl; [reflexivity |].
  now rewrite concat_app, IH.
Qed.

Section ChunksOf.

Variable k : nat.
Hypothesis k_positive : (1 <= k)%nat.

Lemma chunksOf_length (n : nat) (l : list jsstring) :
  List.length (chunksOf n k l) = n.
Proof. revert l. induction n; simpl; auto. Qed.

Lemma concat_chunksOf (n : nat) (l : list jsstring) :
  concat (chunksOf n k l) = firstn (n * k) l.
Proof.
  revert l. induction n as [|n IH]; intros l; simpl; [reflexivity |].
  now rewrite IH, firstn_add.
Qed.

Lemma chunksOf_nonempty (n : nat) (l : list jsstring) :
  (n * k < List.length l + k)%nat ->
  Forall (fun group => group <> []) (chunksOf n k l).
Proof.
  revert l. induction n as [|n IH]; intros l Hn; simpl; constructor.
  - destruct l as [|x l]; [simpl in Hn; lia |].
    destruct k; [lia | discriminate].
  - apply IH. rewrite length_skipn. nia.
Qed.

Lemma chunksOf_short (n : nat) (l : list jsstring) :
  Forall (fun group => (List.length group <= k)%nat) (chunksOf n k l).
Proof.
  revert l. induction n as [|n IH]; intros l; simpl; constructor; auto.
  apply firstn_le_length.
Qed.

Lemma chunksOf_wellFormed (n : nat) (l : list jsstring) :
  wellFormed l -> Forall wellFormed (chunksOf n k l).
Proof.
  revert l. induction n as [|n IH]; intros l Hwf; simpl; constructor.
  - now apply wellFormed_firstn.
  - apply IH. now apply wellFormed_skipn.
Qed.

End ChunksOf.

(** The loop, for a finite count: [n] more iterations are due. *)
Lemma chunkString_loop_finite (s : jsstring) (c k : Z) (n : nat) :
  forall (fuel : nat) (i b : Z) (acc : list jsstring),
    0 <= b -> 0 <= k -> c = i + Z.of_nat n ->
    chunkString_loop fuel s (Fin c) k i b acc
    = if (n <=? fuel)%nat
      then Some (acc ++ map (@concat Z)
                   (chunksOf n (Z.to_nat k) (skipn (Z.to_nat b) (toArray s))))
      else None.
Proof.
  induction n as [|n IH]; intros fuel i b acc Hb Hk Hc.
  - assert (E : (i <? c) = false) by (apply Z.ltb_ge; lia).
    destruct fuel; simpl; rewrite E, app_nil_r; reflexivity.
  - assert (E : (i <? c) = true) by (apply Z.ltb_lt; lia).
    destruct fuel as [|fuel]; simpl; rewrite E; [reflexivity |].
    rewrite IH by lia.
    rewrite substr_symbols by assumption.
    rewrite skipn_skipn, <- Z2Nat.inj_add by assumption.
    rewrite <- app_assoc. simpl.
    now replace (k + b) with (b + k) by lia.
Qed.

(** The loop, for an infinite count: it never exits. *)
Lemma chunkString_loop_infinite (fuel : nat) :
  forall (s : jsstring) (k i b : Z) (acc : list jsstring),
    chunkString_loop fuel s PosInf k i b acc = None.
Proof. induction fuel; intros; simpl; auto. Qed.

(** A chunk length of zero on a non-empty string makes the count
    infinite. *)
Lemma chunkString_zero_diverges (fuel : nat) (s : jsstring) (len : Z) :
  0 < len -> chunkString fuel s len (Fin 0) = None.
Proof.
  intros Hlen. unfold chunkString, Math_ceil_div. simpl.
  destruct (Z.eqb_spec len 0); [lia |].
  destruct (Z.ltb_spec 0 len); [| lia].
  apply chunkString_loop_infinite.
Qed.

(** What [chunkString] computes for a positive chunk length. *)
Lemma chunkString_chunkPlan (fuel : nat) (s : jsstring) (k : Z) :
  1 <= k ->
  chunkString fuel s (Stringz.length s) (Fin k)
  = if (List.length (chunkPlan s k) <=? fuel)%nat
    then Some (chunkPlan s k) else None.
Proof.
  intros Hk. unfold chunkString.
  rewrite Math_ceil_div_ceiling by lia.
  pose proof (ceiling_bounds (Stringz.length s) k ltac:(lia)) as Hc.
  assert (0 <= Stringz.length s) by (unfold Stringz.length; lia).
  rewrite (chunkString_loop_finite s _ k
             (Z.to_nat (ceiling (Stringz.length s) k))) by nia.
  unfold chunkPlan. rewrite length_map, chunksOf_length. reflexivity.
Qed.

Section ChunkPlan.

Variables (s : jsstring) (k : Z).
Hypothesis k_positive : 1 <= k.

Let n : Z := ceiling (Stringz.length s) k.

Lemma chunkPlan_length : Z.of_nat (List.length (chunkPlan s k)) = n.
Proof.
  unfold chunkPlan. rewrite length_map, chunksOf_length.
  pose proof (ceiling_bounds (Stringz.length s) k ltac:(lia)).
  assert (0 <= Stringz.length s) by (unfold Stringz.length; lia).
  subst n. nia.
Qed.

Lemma chunkPlan_groups :
  concat (chunksOf (Z.to_nat n) (Z.to_nat k) (toArray s)) = toArray s.
Proof.
  rewrite concat_chunksOf. apply firstn_all2.
  pose proof (ceiling_bounds (Stringz.length s) k ltac:(lia)).
  unfold Stringz.length in *. subst n. nia.
Qed.

Lemma chunkPlan_concat : concat (chunkPlan s k) = s.
Proof.
  unfold chunkPlan. fold n.
  now rewrite concat_map_concat, chunkPlan_groups, toArray_concat.
Qed.

Lemma chunkPlan_nonempty : Forall (fun chunk => chunk <> []) (chunkPlan s k).
Proof.
  unfold chunkPlan. fold n. apply Forall_map.
  pose proof (ceiling_bounds (Stringz.length s) k ltac:(lia)) as Hc.
  assert (Hne : Forall (fun group => group <> [])
                  (chunksOf (Z.to_nat n) (Z.to_nat k) (toArray s))).
  { apply chunksOf_nonempty; [lia |].
    unfold Stringz.length in *. subst n. nia. }
  assert (Hwf : Forall wellFormed
                  (chunksOf (Z.to_nat n) (Z.to_nat k) (toArray s)))
    by (apply chunksOf_wellFormed, toArray_wellFormed).
  rewrite Forall_forall in *. intros group Hin E.
  apply (Hne group Hin).
  apply concat_nil_nonempty; [| exact E].
  apply wellFormed_nonempty. auto.
Qed.

Lemma chunkPlan_chunk_length :
  Forall (fun chunk => 1 <= Stringz.length chunk <= k) (chunkPlan s k).
Proof.
  pose proof chunkPlan_nonempty as Hne.
  unfold chunkPlan in *. fold n in Hne |- *.
  rewrite Forall_map in *.
  pose proof (chunksOf_short (Z.to_nat k) (Z.to_nat n) (toArray s)) as Hs.
  pose proof (chunksOf_wellFormed (Z.to_nat k) (Z.to_nat n) (toArray s)
                (toArray_wellFormed s)) as Hwf.
  rewrite Forall_forall in *. intros group Hin.
  rewrite length_concat_wellFormed by auto.
  specialize (Hs group Hin). specialize (Hne group Hin).
  destruct group; [contradiction | simpl in *; lia].
Qed.

Lemma chunkPlan_total_length :
  sumZ (map Stringz.length (chunkPlan s k)) = Stringz.length s.
Proof.
  unfold chunkPlan. fold n.
  pose proof (chunksOf_wellFormed (Z.to_nat k) (Z.to_nat n) (toArray s)
                (toArray_wellFormed s)) as Hwf.
  unfold Stringz.length at 2. rewrite <- chunkPlan_groups at 2.
  induction Hwf as [|group groups Hg _ IH]; simpl; [reflexivity |].
  rewrite length_concat_wellFormed, IH, length_app by assumption. lia.
Qed.

Lemma chunkPlan_boundaries (before after : list jsstring) :
  chunkPlan s k = before ++ after ->
  ~ splitsSurrogatePair (concat before) (concat after).
Proof.
  unfold chunkPlan. fold n. intros E.
  apply map_eq_app in E as (g1 & g2 & Eg & E1 & E2). subst before after.
  rewrite !concat_map_concat. apply wellFormed_no_split.
  rewrite <- concat_app, <- Eg, chunkPlan_groups.
  apply toArray_wellFormed.
Qed.

End ChunkPlan.

End ChunkingFacts.

(** ** The chunking routine over any symbols *)

Module SymbolFacts.
Import Js Symbols Segmentation StringzFacts ChunkingFacts.

Lemma Forall_run (A : Type) (P : A -> Prop) (k b : nat) (l : list A) :
  Forall P l -> Forall P (firstn k (skipn b l)).
Proof.
  intros H. rewrite Forall_forall in *. intros x Hx. apply H.
  rewrite <- (firstn_skipn b l). apply in_or_app. right.
  rewrite <- (firstn_skipn k (skipn b l)). apply in_or_app. now left.
Qed.

Section Over.

Variable toArray : jsstring -> list jsstring.

Lemma substr_over (s : jsstring) (b k : Z) :
  0 <= b -> 0 <= k ->
  OverSymbols.substr toArray s b k
  = concat (firstn (Z.to_nat k) (skipn (Z.to_nat b) (toArray s))).
Proof.
  intros Hb Hk.
  assert (E1 : (b <? 0) = false) by (apply Z.ltb_ge; lia).
  assert (E2 : (0 <=? k) = true) by (apply Z.leb_le; lia).
  assert (E3 : (k + b <? 0) = false) by (apply Z.ltb_ge; lia).
  unfold OverSymbols.substr, OverSymbols.length. set (arr := toArray s).
  destruct (Z.leb_spec (Z.of_nat (List.length arr)) b) as [Hle|Hlt].
  - rewrite skipn_all2 by lia. now rewrite firstn_nil.
  - rewrite E1, E2. unfold slice. rewrite E1, E3.
    rewrite (Z.min_l b) by lia.
    destruct (Z.le_ge_cases (k + b) (Z.of_nat (List.length arr))) as [H|H].
    + rewrite Z.min_l by lia. now replace (k + b - b) with k by lia.
    + rewrite Z.min_r by lia.
      rewrite !firstn_all2; [reflexivity | |]; rewrite length_skipn; lia.
Qed.

(** The chunk the loop writes at index [i] is
    [substr(string, i * chunkSize, chunkSize)]. *)
Lemma loop_over (s : jsstring) (c k : Z) (n : nat) :
  forall (fuel : nat) (i : Z) (acc : list jsstring),
    0 <= i -> 0 <= k -> c = i + Z.of_nat n ->
    OverSymbols.chunkString_loop toArray fuel s (Fin c) k i (i * k) acc
    = if (n <=? fuel)%nat
      then Some (acc ++ map (fun j => OverSymbols.substr toArray s
                                        ((i + Z.of_nat j) * k) k)
                          (seq 0 n))
      else None.
Proof.
  induction n as [|n IH]; intros fuel i acc Hi Hk Hc.
  - assert (E : (i <? c) = false) by (apply Z.ltb_ge; lia).
    destruct fuel; simpl; rewrite E, app_nil_r; reflexivity.
  - assert (E : (i <? c) = true) by (apply Z.ltb_lt; lia).
    destruct fuel as [|fuel]; simpl; rewrite E; [reflexivity |].
    replace (i * k + k) with ((i + 1) * k) by lia.
    rewrite IH by lia.
    destruct (n <=? fuel)%nat; [| reflexivity].
    rewrite <- app_assoc. simpl. rewrite Z.add_0_r.
    do 3 f_equal. rewrite <- seq_shift, map_map.
    apply map_ext. intros j. f_equal. lia.
Qed.

Lemma chunkString_over (fuel : nat) (s : jsstring) (len k : Z) :
  0 <= len -> 1 <= k ->
  OverSymbols.chunkString toArray fuel s len (Fin k)
  = if (Z.to_nat (ceiling len k) <=? fuel)%nat
    then Some (map (fun j => OverSymbols.substr toArray s (Z.of_nat j * k) k)
                 (seq 0 (Z.to_nat (ceiling len k))))
    else None.
Proof.
  intros Hlen Hk. unfold OverSymbols.chunkString.
  rewrite Math_ceil_div_ceiling by lia.
  pose proof (ceiling_bounds len k ltac:(lia)) as Hb.
  assert (Hn : 0 <= ceiling len k) by nia.
  change 0 with (0 * k) at 2.
  rewrite (loop_over s _ k (Z.to_nat (ceiling len k))) by lia.
  reflexivity.
Qed.

Lemma nth_groups (k n : nat) :
  forall (i : nat) (l : list jsstring),
    (i < n)%nat ->
    nth i (chunksOf n k l) [] = firstn k (skipn (i * k) l).
Proof.
  induction n as [|n IH]; intros i l Hi; [lia |].
  destruct i as [|i]; simpl; [reflexivity |].
  rewrite IH by lia. now rewrite skipn_skipn, Nat.add_comm.
Qed.

(** The chunks are the groups of symbols, flattened. *)
Lemma chunks_from (s : jsstring) (k : Z) (n : nat) :
  forall a : nat,
    0 <= k ->
    map (fun j => OverSymbols.substr toArray s (Z.of_nat j * k) k) (seq a n)
    = map (@concat Z)
        (chunksOf n (Z.to_nat k) (skipn (a * Z.to_nat k) (toArray s))).
Proof.
  induction n as [|n IH]; intros a Hk; simpl; [reflexivity |].
  rewrite substr_over by lia. f_equal.
  - do 3 f_equal. lia.
  - rewrite IH by assumption. rewrite skipn_skipn. do 3 f_equal.
Qed.

Lemma chunks_over (s : jsstring) (n k : Z) :
  0 <= k ->
  map (fun j => OverSymbols.substr toArray s (Z.of_nat j * k) k)
    (seq 0 (Z.to_nat n))
  = chunkPlanOver toArray s n k.
Proof. intros Hk. now rewrite chunks_from. Qed.

Section Plan.

Hypothesis laws : SymbolSegmentation toArray.
Variables (s : jsstring) (k : Z).
Hypothesis k_positive : 1 <= k.

Let len : Z := OverSymbols.length toArray s.
Let n : Z := ceiling len k.

Lemma plan_count : 0 <= n /\ (n - 1) * k < len <= n * k.
Proof.
  pose proof (ceiling_bounds len k ltac:(lia)) as Hb.
  assert (0 <= len) by (unfold len, OverSymbols.length; lia).
  fold n in Hb. split; [nia | exact Hb].
Qed.

Lemma plan_length :
  Z.of_nat (List.length (chunkPlanOver toArray s n k)) = n.
Proof.
  unfold chunkPlanOver. rewrite length_map, chunksOf_length.
  pose proof plan_count. lia.
Qed.

Lemma plan_groups :
  concat (chunksOf (Z.to_nat n) (Z.to_nat k) (toArray s)) = toArray s.
Proof.
  rewrite concat_chunksOf. apply firstn_all2.
  pose proof plan_count as [Hn Hb].
  unfold len, OverSymbols.length in Hb. nia.
Qed.

Lemma plan_concat : concat (chunkPlanOver toArray s n k) = s.
Proof.
  unfold chunkPlanOver.
  now rewrite concat_map_concat, plan_groups, (symbols_concat _ laws).
Qed.

(** Every group is a run of consecutive symbols of the string. *)
Lemma plan_runs (m : nat) :
  forall b : nat,
    Forall (fun group =>
              exists b', group = firstn (Z.to_nat k) (skipn b' (toArray s)))
      (chunksOf m (Z.to_nat k) (skipn b (toArray s))).
Proof.
  induction m as [|m IH]; intros b; simpl; constructor.
  - eauto.
  - rewrite skipn_skipn. apply IH.
Qed.

Lemma plan_symbols :
  map toArray (chunkPlanOver toArray s n k)
  = chunksOf (Z.to_nat n) (Z.to_nat k) (toArray s).
Proof.
  unfold chunkPlanOver. rewrite map_map.
  pose proof (plan_runs (Z.to_nat n) 0) as Hruns. simpl in Hruns.
  induction Hruns as [|group groups [b ->] _ IH]; simpl; [reflexivity |].
  now rewrite (symbols_stable _ laws), IH.
Qed.

Lemma plan_whole_symbols :
  concat (map toArray (chunkPlanOver toArray s n k)) = toArray s.
Proof. now rewrite plan_symbols, plan_groups. Qed.

Lemma plan_total_length :
  sumZ (map (OverSymbols.length toArray) (chunkPlanOver toArray s n k))
  = len.
Proof.
  unfold len, OverSymbols.length at 2. rewrite <- plan_whole_symbols.
  induction (chunkPlanOver toArray s n k) as [|chunk chunks IH]; simpl;
    [reflexivity |].
  rewrite IH, length_app. unfold OverSymbols.length. lia.
Qed.

Lemma plan_nonempty :
  Forall (fun chunk => chunk <> []) (chunkPlanOver toArray s n k).
Proof.
  unfold chunkPlanOver. apply Forall_map.
  pose proof plan_count as [Hn Hb].
  assert (Hne : Forall (fun group => group <> [])
                  (chunksOf (Z.to_nat n) (Z.to_nat k) (toArray s))).
  { apply chunksOf_nonempty; [lia |].
    unfold len, OverSymbols.length in Hb. nia. }
  pose proof (plan_runs (Z.to_nat n) 0) as Hruns. simpl in Hruns.
  rewrite Forall_forall in *. intros group Hin E.
  apply (Hne group Hin).
  destruct (Hruns group Hin) as [b ->].
  apply concat_nil_nonempty; [| exact E].
  apply Forall_run, (symbols_nonempty _ laws s).
Qed.

Lemma plan_boundaries (before after : list jsstring) :
  chunkPlanOver toArray s n k = before ++ after ->
  ~ splitsSurrogatePair (concat before) (concat after).
Proof.
  unfold chunkPlanOver. intros E.
  apply map_eq_app in E as (g1 & g2 & Eg & E1 & E2). subst before after.
  rewrite !concat_map_concat. apply (symbols_pairs _ laws s).
  now rewrite <- concat_app, <- Eg, plan_groups.
Qed.

(** The chunk at index [i] has [min(k, len - i * k)] symbols. *)
Lemma plan_chunk_symbols (i : nat) :
  (i < List.length (chunkPlanOver toArray s n k))%nat ->
  OverSymbols.length toArray (nth i (chunkPlanOver toArray s n k) [])
  = Z.min k (len - Z.of_nat i * k).
Proof.
  intros Hi. pose proof plan_count as [Hn Hb].
  unfold chunkPlanOver in *. rewrite length_map, chunksOf_length in Hi.
  change (@nil Z) with (@concat Z []). rewrite map_nth.
  rewrite nth_groups by assumption.
  unfold OverSymbols.length at 1. rewrite (symbols_stable _ laws).
  rewrite length_firstn, length_skipn.
  unfold len, OverSymbols.length in *. nia.
Qed.

End Plan.

End Over.

(** The symbols of the code-point reading are a segmentation. *)
Lemma codePoints_segmentation : SymbolSegmentation Stringz.toArray.
Proof.
  split.
  - apply toArray_concat.
  - intros s. apply wellFormed_nonempty, toArray_wellFormed.
  - intros s b k. apply toArray_of_wellFormed.
    apply wellFormed_firstn, wellFormed_skipn, toArray_wellFormed.
  - intros s before after E. apply wellFormed_no_split.
    rewrite <- E. apply toArray_wellFormed.
Qed.

(** With the code-point symbols for the parameter the routine is the
    one of the transformer. *)
Lemma substr_codePoints (s : jsstring) (b k : Z) :
  OverSymbols.substr Stringz.toArray s b k = Stringz.substr s b k.
Proof. reflexivity. Qed.

Lemma loop_codePoints (s : jsstring) (count : number) (k : Z) :
  forall (fuel : nat) (i start : Z) (acc : list jsstring),
    OverSymbols.chunkString_loop Stringz.toArray fuel s count k i start acc
    = SplitStringTransformer.chunkString_loop fuel s count k i start acc.
Proof.
  induction fuel as [|fuel IH]; intros i start acc; simpl;
    destruct (lt (Fin i) count); reflexivity.
Qed.

Lemma chunkString_codePoints (fuel : nat) (s : jsstring) (len : Z)
  (k : number) :
  OverSymbols.chunkString Stringz.toArray fuel s len k
  = SplitStringTransformer.chunkString fuel s len k.
Proof.
  destruct k; [apply loop_codePoints | reflexivity ..].
Qed.

Lemma split_codePoints (fuel : nat) (node : ESTree.Node) (k : number) :
  OverSymbols.transformLiteralNodeByChunkLength Stringz.toArray fuel node k
  = SplitStringTransformer.transformLiteralNodeByChunkLength fuel node k.
Proof.
  unfold OverSymbols.transformLiteralNodeByChunkLength,
    SplitStringTransformer.transformLiteralNodeByChunkLength.
  destruct (SplitStringTransformer.isStringLiteralNode node);
    [| reflexivity].
  now rewrite chunkString_codePoints.
Qed.

(** The code points of two strings joined where no surrogate pair is
    cut are the code points of the one followed by those of the
    other. *)
Lemma codePoints_app (a b : jsstring) :
  ~ splitsSurrogatePair a b ->
  Stringz.toArray (a ++ b) = Stringz.toArray a ++ Stringz.toArray b.
Proof.
  revert b.
  apply (toArray_ind (fun a r =>
    forall b, ~ splitsSurrogatePair a b ->
              Stringz.toArray (a ++ b) = r ++ Stringz.toArray b)).
  - reflexivity.
  - intros h [|l t] Hns; [reflexivity |].
    change (Stringz.toArray ([h] ++ l :: t))
      with (if Stringz.isHighSurrogate h && Stringz.isLowSurrogate l
            then [h; l] :: Stringz.toArray t
            else [h] :: Stringz.toArray (l :: t)).
    destruct (Stringz.isHighSurrogate h && Stringz.isLowSurrogate l) eqn:E;
      [| reflexivity].
    exfalso. apply Hns. apply andb_prop in E as [Hh Hl].
    exists [], h, l, t. auto.
  - intros h l t E IH b Hns.
    change (Stringz.toArray ((h :: l :: t) ++ b))
      with (if Stringz.isHighSurrogate h && Stringz.isLowSurrogate l
            then [h; l] :: Stringz.toArray (t ++ b)
            else [h] :: Stringz.toArray (l :: t ++ b)).
    rewrite E, IH; [reflexivity |].
    intros (a' & x & y & b' & -> & -> & Hx & Hy). apply Hns.
    exists (h :: l :: a'), x, y, b'. auto.
  - intros h l t E IH b Hns.
    change (Stringz.toArray ((h :: l :: t) ++ b))
      with (if Stringz.isHighSurrogate h && Stringz.isLowSurrogate l
            then [h; l] :: Stringz.toArray (t ++ b)
            else [h] :: Stringz.toArray ((l :: t) ++ b)).
    rewrite E, IH; [reflexivity |].
    intros (a' & x & y & b' & Ea & -> & Hx & Hy). apply Hns.
    exists (h :: a'), x, y, b'. simpl. rewrite Ea. auto.
Qed.

(** Chunks cut where no surrogate pair is: their code-point lengths add
    up to the code-point length of their concatenation. *)
Lemma codePoints_sum (chunks : list jsstring) :
  (forall before after : list jsstring,
     chunks = before ++ after ->
     ~ splitsSurrogatePair (concat before) (concat after)) ->
  sumZ (map Stringz.length chunks) = Stringz.length (concat chunks).
Proof.
  induction chunks as [|chunk chunks IH]; intros Hns; [reflexivity |].
  simpl. rewrite IH.
  - unfold Stringz.length. rewrite codePoints_app, length_app; [lia |].
    specialize (Hns [chunk] chunks eq_refl).
    simpl in Hns. now rewrite app_nil_r in Hns.
  - intros before after -> (a & h & l & b & Ea & Eb & Hh & Hl).
    apply (Hns (chunk :: before) after eq_refl).
    exists (chunk ++ a), h, l, b. simpl. rewrite Ea, app_assoc. auto.
Qed.

(** *** The symbols that join combining marks *)

Lemma marks_ind (P : jsstring -> list jsstring -> Prop) :
  P [] [] ->
  (forall h, P [h] [[h]]) ->
  (forall h l t, SymbolsWithMarks.joined h l = true ->
                 P t (SymbolsWithMarks.toArray t) ->
                 P (h :: l :: t) ([h; l] :: SymbolsWithMarks.toArray t)) ->
  (forall h l t, SymbolsWithMarks.joined h l = false ->
                 P (l :: t) (SymbolsWithMarks.toArray (l :: t)) ->
                 P (h :: l :: t) ([h] :: SymbolsWithMarks.toArray (l :: t))) ->
  forall s, P s (SymbolsWithMarks.toArray s).
Proof.
  intros Hnil Hone Hpair Hsingle s.
  assert (H : forall n s, (List.length s <= n)%nat ->
                          P s (SymbolsWithMarks.toArray s)).
  { induction n as [|n IH]; intros [|h [|l t]] Hlen; simpl in Hlen;
      try exact Hnil; try apply Hone; try lia.
    change (SymbolsWithMarks.toArray (h :: l :: t))
      with (if SymbolsWithMarks.joined h l
            then [h; l] :: SymbolsWithMarks.toArray t
            else [h] :: SymbolsWithMarks.toArray (l :: t)).
    destruct (SymbolsWithMarks.joined h l) eqn:E.
    - apply Hpair; [exact E | apply IH; lia].
    - apply Hsingle; [exact E | apply IH; simpl; lia]. }
  apply (H (List.length s)); lia.
Qed.

Lemma marks_concat (s : jsstring) :
  concat (SymbolsWithMarks.toArray s) = s.
Proof.
  apply (marks_ind (fun s r => concat r = s)); simpl; intros;
    try reflexivity; congruence.
Qed.

Lemma marks_markForm (s : jsstring) : markForm (SymbolsWithMarks.toArray s).
Proof.
  apply (marks_ind (fun _ r => markForm r)).
  - constructor.
  - intros h. constructor; [reflexivity | constructor].
  - intros h l t E IH. now constructor.
  - intros h l t E IH. constructor; [| exact IH].
    destruct t as [|l' t']; simpl; [exact E |].
    destruct (SymbolsWithMarks.joined l l'); exact E.
Qed.

Lemma markForm_nonempty (l : list jsstring) :
  markForm l -> Forall (fun symbol => symbol <> []) l.
Proof. induction 1; constructor; auto; discriminate. Qed.

Lemma joinsNext_concat (l : list jsstring) (u v : Z) (s : jsstring) :
  markForm l -> concat l = v :: s ->
  joinsNext u l = SymbolsWithMarks.joined u v.
Proof.
  intros Hmf. destruct Hmf; simpl; intros E; congruence.
Qed.

Lemma marks_of_markForm (l : list jsstring) :
  markForm l -> SymbolsWithMarks.toArray (concat l) = l.
Proof.
  induction 1 as [|h l rest Hj Hmf IH|u rest Hu Hmf IH].
  - reflexivity.
  - simpl. rewrite Hj. now rewrite IH.
  - simpl. destruct (concat rest) as [|x t] eqn:E.
    + apply concat_nil_nonempty in E;
        [subst; reflexivity | now apply markForm_nonempty].
    + rewrite (joinsNext_concat rest u x t Hmf E) in Hu. rewrite Hu.
      now rewrite IH.
Qed.

Lemma markForm_skipn (k : nat) (l : list jsstring) :
  markForm l -> markForm (skipn k l).
Proof.
  intros Hmf. revert k.
  induction Hmf; intros [|k]; simpl; auto; constructor; auto.
Qed.

Lemma markForm_firstn (k : nat) (l : list jsstring) :
  markForm l -> markForm (firstn k l).
Proof.
  intros Hmf. revert k.
  induction Hmf as [|h l rest Hj Hmf IH|u rest Hu Hmf IH];
    intros [|k]; simpl; try constructor; auto.
  destruct k, rest; simpl; auto.
Qed.

Lemma joined_surrogates (h l : Z) :
  Stringz.isHighSurrogate h = true -> Stringz.isLowSurrogate l = true ->
  SymbolsWithMarks.joined h l = true.
Proof.
  intros Hh Hl. unfold SymbolsWithMarks.joined. now rewrite Hh, Hl.
Qed.

Lemma joined_second_not_high (h l : Z) :
  SymbolsWithMarks.joined h l = true ->
  Stringz.isHighSurrogate l = false.
Proof.
  unfold SymbolsWithMarks.joined, SymbolsWithMarks.isSurrogate,
    SymbolsWithMarks.isCombiningMark, Stringz.isHighSurrogate,
    Stringz.isLowSurrogate.
  lia.
Qed.

Lemma markForm_boundary (A B : list jsstring) (l : Z) (b : jsstring) :
  markForm (A ++ B) -> concat B = l :: b ->
  Stringz.isHighSurrogate (last (concat A) 0) = true ->
  Stringz.isLowSurrogate l = false.
Proof.
  intros Hmf EB.
  induction A as [|seg A IH]; simpl in *; intros Hlast.
  - discriminate.
  - inversion Hmf as [|h l' rest Hj Hrest|u rest Hu Hrest]; subst;
      destruct (concat A) as [|x t] eqn:E; simpl in Hlast.
    + apply joined_second_not_high in Hj. congruence.
    + apply IH; auto.
    + apply concat_nil_nonempty in E.
      * subst. simpl in Hu.
        rewrite (joinsNext_concat B u l b Hrest EB) in Hu.
        destruct (Stringz.isLowSurrogate l) eqn:Hl; [| reflexivity].
        now rewrite (joined_surrogates u l Hlast Hl) in Hu.
      * apply markForm_nonempty in Hrest.
        apply Forall_app in Hrest. tauto.
    + apply IH; auto.
Qed.

(** The symbols that join combining marks are a segmentation too. *)
Lemma marks_segmentation : SymbolSegmentation SymbolsWithMarks.toArray.
Proof.
  split.
  - apply marks_concat.
  - intros s. apply markForm_nonempty, marks_markForm.
  - intros s b k. apply marks_of_markForm.
    apply markForm_firstn, markForm_skipn, marks_markForm.
  - intros s before after E (a & h & l & b & Ea & Eb & Hh & Hl).
    pose proof (marks_markForm s) as Hmf. rewrite E in Hmf.
    pose proof (markForm_boundary before after l b Hmf Eb) as H.
    rewrite Ea, last_last in H. specialize (H Hh). congruence.
Qed.

End SymbolFacts.

(** ** The expression builder and the split of one literal *)

Module BuilderFacts.
Import Js Stringz ESTree Symbols Trees StringzFacts ChunkingFacts.
Import SplitStringTransformer.

Lemma builder_few (chunks : list jsstring) :
  (List.length chunks < 2)%nat ->
  transformStringChunksToBinaryExpressionNode chunks
  = (Throw emptyChunksMessage, []).
Proof.
  destruct chunks as [|a [|b rest]]; simpl; intros H;
    [reflexivity | | lia].
  unfold transformStringChunksToBinaryExpressionNode. simpl.
  destruct a; reflexivity.
Qed.

Lemma builder_fold (a b : jsstring) (rest : list jsstring) :
  a <> [] -> b <> [] ->
  transformStringChunksToBinaryExpressionNode (a :: b :: rest)
  = (Ok (fold_left extend rest
           (BinaryExpression "+"%string (Literal (StringValue a))
              (Literal (StringValue b)))),
     rest).
Proof.
  intros Ha Hb. destruct a; [contradiction |]. destruct b; [contradiction |].
  reflexivity.
Qed.

Lemma builder_empty_chunk (a b : jsstring) (rest : list jsstring) :
  a = [] \/ b = [] ->
  transformStringChunksToBinaryExpressionNode (a :: b :: rest)
  = (Throw emptyChunksMessage, rest).
Proof.
  intros [-> | ->]; [reflexivity |]. destruct a; reflexivity.
Qed.

Lemma evaluate_fold (rest : list jsstring) :
  forall (init : Node) (v : jsstring),
    evaluate init = Some v ->
    evaluate (fold_left extend rest init) = Some (v ++ concat rest).
Proof.
  induction rest as [|c rest IH]; intros init v Hv; simpl.
  - now rewrite app_nil_r.
  - rewrite (IH _ (v ++ c)); [now rewrite <- app_assoc |].
    simpl. now rewrite Hv.
Qed.

Lemma leaves_fold (rest : list jsstring) :
  forall init : Node,
    leaves (fold_left extend rest init)
    = leaves init ++ map NodeFactory.literalNode rest.
Proof.
  induction rest as [|c rest IH]; intros init; simpl.
  - now rewrite app_nil_r.
  - rewrite IH. simpl. now rewrite <- app_assoc.
Qed.

Lemma fold_not_literal (rest : list jsstring) :
  forall init : Node,
    NodeGuards.isLiteralNode init = false ->
    NodeGuards.isLiteralNode (fold_left extend rest init) = false.
Proof.
  induction rest as [|c rest IH]; intros init Hi; simpl; auto.
Qed.

(** Under the guard [1 <= k < length] the plan has at least two chunks,
    the first two of them non-empty. *)
Lemma chunkPlan_two (s : jsstring) (k : Z) :
  1 <= k < Stringz.length s ->
  exists a b rest,
    chunkPlan s k = a :: b :: rest /\ a <> [] /\ b <> [].
Proof.
  intros Hk.
  pose proof (chunkPlan_length s k ltac:(lia)) as Hn.
  pose proof (ceiling_bounds (Stringz.length s) k ltac:(lia)) as Hc.
  pose proof (chunkPlan_nonempty s k ltac:(lia)) as Hne.
  destruct (chunkPlan s k) as [|a [|b rest]]; simpl in Hn.
  - nia.
  - nia.
  - inversion Hne as [|? ? Ha Hne']; subst.
    inversion Hne' as [|? ? Hb _]; subst. exists a, b, rest. auto.
Qed.

Section SplitTree.

Variables (s : jsstring) (k : Z).
Hypothesis guard : 1 <= k < Stringz.length s.

Lemma splitTree_evaluate : evaluate (splitTree s k) = Some s.
Proof.
  unfold splitTree.
  pose proof (chunkPlan_concat s k ltac:(lia)) as Hc.
  destruct (chunkPlan_two s k guard) as (a & b & rest & E & _ & _).
  rewrite E in *. rewrite (evaluate_fold rest _ (a ++ b)) by reflexivity.
  simpl in Hc. now rewrite <- app_assoc, Hc.
Qed.

Lemma splitTree_leaves :
  leaves (splitTree s k) = map NodeFactory.literalNode (chunkPlan s k).
Proof.
  unfold splitTree.
  destruct (chunkPlan_two s k guard) as (a & b & rest & E & _ & _).
  rewrite E. now rewrite leaves_fold.
Qed.

Lemma splitTree_not_literal :
  NodeGuards.isLiteralNode (splitTree s k) = false.
Proof.
  unfold splitTree.
  destruct (chunkPlan_two s k guard) as (a & b & rest & E & _ & _).
  rewrite E. now apply fold_not_literal.
Qed.

(** The split of a literal under the guard, for every amount of fuel. *)
Lemma split_guarded (fuel : nat) :
  transformLiteralNodeByChunkLength fuel (Literal (StringValue s)) (Fin k)
  = if (List.length (chunkPlan s k) <=? fuel)%nat
    then Ok (splitTree s k, skipn 2 (chunkPlan s k))
    else OutOfFuel.
Proof.
  unfold transformLiteralNodeByChunkLength, isStringLiteralNode, ge.
  replace (Stringz.length s <=? k) with false
    by (symmetry; apply Z.leb_gt; lia).
  rewrite chunkString_chunkPlan by lia.
  destruct (List.length (chunkPlan s k) <=? fuel)%nat; [| reflexivity].
  unfold splitTree.
  destruct (chunkPlan_two s k guard) as (a & b & rest & E & Ha & Hb).
  rewrite E, builder_fold by assumption. reflexivity.
Qed.

End SplitTree.

(** The no-op guard. *)
Lemma split_skipped (fuel : nat) (s : jsstring) (chunkLength : number) :
  ge chunkLength (Fin (Stringz.length s)) = true ->
  transformLiteralNodeByChunkLength fuel (Literal (StringValue s)) chunkLength
  = Ok (Literal (StringValue s), []).
Proof.
  intros H. unfold transformLiteralNodeByChunkLength. simpl. now rewrite H.
Qed.

(** A chunk length of zero: the split of a non-empty string never
    returns. *)
Lemma split_zero_diverges (fuel : nat) (s : jsstring) :
  0 < Stringz.length s ->
  transformLiteralNodeByChunkLength fuel (Literal (StringValue s)) (Fin 0)
  = OutOfFuel.
Proof.
  intros H.
  unfold transformLiteralNodeByChunkLength, isStringLiteralNode, ge.
  replace (Stringz.length s <=? 0) with false
    by (symmetry; apply Z.leb_gt; lia).
  now rewrite chunkString_zero_diverges.
Qed.

End BuilderFacts.

(** ** The second pass and the whole transform *)

Module TransformFacts.
Import Js Stringz ESTree Symbols Trees.
Import StringzFacts ChunkingFacts BuilderFacts SplitStringTransformer.

Lemma settled_left F K operator lhs rhs :
  settled F K (BinaryExpression operator lhs rhs) -> settled F K lhs.
Proof. intros H leaf Hin. apply H. simpl. apply in_or_app. now left. Qed.

Lemma settled_right F K operator lhs rhs :
  settled F K (BinaryExpression operator lhs rhs) -> settled F K rhs.
Proof. intros H leaf Hin. apply H. simpl. apply in_or_app. now right. Qed.


Lemma replace_visits_step fuel enter node :
  Estraverse.replace_visits (S fuel) enter node
  = let* target := enter node in
    let node' := match target with Some t => t | None => node end in
    match node' with
    | Literal _ => Ok (node', [node])
    | BinaryExpression operator lhs rhs =>
        let* l := Estraverse.replace_visits fuel enter lhs in
        let* r := Estraverse.replace_visits fuel enter rhs in
        Ok (BinaryExpression operator (fst l) (fst r),
            node :: snd l ++ snd r)
    end.
Proof. reflexivity. Qed.

Lemma secondPassEnter_literal F K value :
  secondPassEnter F K (Literal value)
  = let* r := transformLiteralNodeByChunkLength F (Literal value) K in
    Ok (Some (fst r)).
Proof. reflexivity. Qed.

(** On a settled tree the walk visits every node and changes nothing. *)
Lemma replace_settled (F : nat) (K : number) (tree : Node) :
  forall fuel : nat,
    settled F K tree -> (height tree < fuel)%nat ->
    Estraverse.replace_visits fuel (secondPassEnter F K) tree
    = Ok (tree, preorder tree).
Proof.
  induction tree as [value | operator lhs IHl rhs IHr];
    intros [|fuel] Hs Hh; try (simpl in Hh; lia).
  - simpl. unfold secondPassEnter. simpl.
    rewrite (Hs (Literal value)) by (simpl; auto). reflexivity.
  - simpl in Hh. simpl.
    rewrite IHl, IHr; eauto using settled_left, settled_right; lia.
Qed.

Lemma short_settled (F : nat) (k : Z) (tree : Node) :
  (forall leaf, In leaf (leaves tree) ->
     exists c, leaf = Literal (StringValue c) /\ Stringz.length c <= k) ->
  settled F (Fin k) tree.
Proof.
  intros H leaf Hin. destruct (H leaf Hin) as (c & -> & Hc).
  apply split_skipped. now apply Z.leb_le.
Qed.

Section OneLiteral.

Variables (s : jsstring) (k : Z).
Hypothesis guard : 1 <= k < Stringz.length s.

Lemma splitTree_settled (F : nat) : settled F (Fin k) (splitTree s k).
Proof.
  apply short_settled. intros leaf Hin.
  rewrite splitTree_leaves in Hin by assumption.
  apply in_map_iff in Hin as (c & <- & Hc).
  pose proof (chunkPlan_chunk_length s k ltac:(lia)) as Hlen.
  rewrite Forall_forall in Hlen. exists c. split; [reflexivity |].
  apply Hlen, Hc.
Qed.

(** The walk over one literal that is split: the callback is run on the
    literal and then on every node below the root of the replacement,
    and the replacement comes out as it went in. *)
Lemma replace_literal_split (fuel F : nat) :
  (List.length (chunkPlan s k) <= F)%nat ->
  (height (splitTree s k) < fuel)%nat ->
  Estraverse.replace_visits fuel (secondPassEnter F (Fin k))
    (Literal (StringValue s))
  = Ok (splitTree s k,
        Literal (StringValue s) :: tl (preorder (splitTree s k))).
Proof.
  intros HF Hfuel. destruct fuel as [|fuel]; [lia |].
  rewrite replace_visits_step, secondPassEnter_literal.
  rewrite split_guarded by assumption.
  apply Nat.leb_le in HF. rewrite HF. cbn [bind fst].
  pose proof (splitTree_settled F) as Hs.
  pose proof splitTree_not_literal s k guard as Hn.
  destruct (splitTree s k) as [|operator lhs rhs]; [discriminate |].
  simpl in Hfuel.
  rewrite !replace_settled;
    eauto using settled_left, settled_right; lia.
Qed.

End OneLiteral.

(** The second pass with a chunk length of at least one: given enough
    fuel it returns the tree with every long leaf split once. *)
Lemma replace_splitLeaves (k : Z) (tree : Node) :
  1 <= k ->
  exists fuel0 : nat,
    forall fuel F : nat, (fuel0 <= fuel)%nat -> (fuel0 <= F)%nat ->
      exists visits,
        Estraverse.replace_visits fuel (secondPassEnter F (Fin k)) tree
        = Ok (splitLeaves k tree, visits).
Proof.
  intros Hk.
  induction tree as [value | operator lhs [fl IHl] rhs [fr IHr]].
  - destruct value as [s | z | b |].
    + simpl. destruct (Z.leb_spec (Stringz.length s) k) as [Hle|Hgt].
      * exists 1%nat. intros [|fuel] F Hfuel _; [lia |]. simpl.
        unfold secondPassEnter. simpl.
        rewrite split_skipped by (now apply Z.leb_le). simpl. eauto.
      * exists (Nat.max (List.length (chunkPlan s k))
                  (S (height (splitTree s k)))).
        intros fuel F Hfuel HF.
        rewrite replace_literal_split by lia. eauto.
    + exists 1%nat. intros [|fuel] F Hfuel _; [lia |]. simpl. eauto.
    + exists 1%nat. intros [|fuel] F Hfuel _; [lia |]. simpl. eauto.
    + exists 1%nat. intros [|fuel] F Hfuel _; [lia |]. simpl. eauto.
  - exists (S (Nat.max fl fr)). intros [|fuel] F Hfuel HF; [lia |].
    destruct (IHl fuel F ltac:(lia) ltac:(lia)) as [vl El].
    destruct (IHr fuel F ltac:(lia) ltac:(lia)) as [vr Er].
    simpl. rewrite El, Er. simpl. eauto.
Qed.

Lemma evaluate_splitLeaves (k : Z) (tree : Node) :
  1 <= k -> evaluate (splitLeaves k tree) = evaluate tree.
Proof.
  intros Hk. induction tree as [value | operator lhs IHl rhs IHr].
  - destruct value as [s | z | b |]; try reflexivity.
    simpl. destruct (Z.leb_spec (Stringz.length s) k) as [Hle|Hgt];
      [reflexivity |].
    now rewrite splitTree_evaluate by lia.
  - simpl. now rewrite IHl, IHr.
Qed.

(** The second pass with a chunk length of zero never returns, whatever
    the fuel, on a tree whose leaves are non-empty strings. *)
Lemma replace_zero_diverges (F fuel : nat) :
  forall tree : Node,
    (forall leaf, In leaf (leaves tree) ->
       exists c, leaf = Literal (StringValue c) /\ 0 < Stringz.length c) ->
    Estraverse.replace_visits fuel (secondPassEnter F (Fin 0)) tree
    = OutOfFuel.
Proof.
  induction fuel as [|fuel IH]; intros tree Hleaves; [reflexivity |].
  destruct tree as [value | operator lhs rhs].
  - destruct (Hleaves (Literal value)) as (c & E & Hc); [simpl; auto |].
    injection E as ->. simpl. unfold secondPassEnter. simpl.
    now rewrite split_zero_diverges.
  - simpl. rewrite IH; [reflexivity |].
    intros leaf Hin. apply Hleaves. simpl. apply in_or_app. now left.
Qed.

Section FirstPass.

Variable splitStringsChunkLength : Z.
Variable s : jsstring.

Lemma firstPass_short (fuel : nat) :
  Stringz.length s <= firstPassChunkLength ->
  firstPass splitStringsChunkLength fuel (Literal (StringValue s))
  = Ok (Literal (StringValue s), 0,
        minSecondPathChunkLength splitStringsChunkLength 0).
Proof.
  intros H. unfold firstPass.
  rewrite split_skipped by (now apply Z.leb_le). reflexivity.
Qed.

(** The count that the first pass records for a string of more than 1000
    code points is two less than the number of chunks. *)
Lemma firstPass_long (fuel : nat) :
  firstPassChunkLength < Stringz.length s ->
  firstPass splitStringsChunkLength fuel (Literal (StringValue s))
  = if (List.length (chunkPlan s firstPassChunkLength) <=? fuel)%nat
    then
      let recorded := ceiling (Stringz.length s) firstPassChunkLength - 2 in
      Ok (splitTree s firstPassChunkLength, recorded,
          minSecondPathChunkLength splitStringsChunkLength recorded)
    else OutOfFuel.
Proof.
  intros H. unfold firstPass, firstPassChunkLength in *.
  rewrite split_guarded by lia.
  destruct (List.length (chunkPlan s 1000) <=? fuel)%nat; [| reflexivity].
  simpl bind. cbv zeta.
  pose proof (chunkPlan_length s 1000 ltac:(lia)) as Hn.
  destruct (chunkPlan_two s 1000 ltac:(lia)) as (a & b & rest & E & _ & _).
  rewrite E in *. simpl in Hn. simpl fst. simpl snd. simpl skipn.
  replace (Z.of_nat (List.length rest))
    with (ceiling (Stringz.length s) 1000 - 2) by lia.
  reflexivity.
Qed.

End FirstPass.

Lemma minSecondPathChunkLength_zero (target recorded : Z) :
  30 <= recorded < target ->
  minSecondPathChunkLength target recorded = Fin 0.
Proof.
  intros H. unfold minSecondPathChunkLength, isLargeString.
  change (maxStringLengthForSecondPass / firstPassChunkLength) with 30.
  replace (30 <=? recorded) with true by (symmetry; apply Z.leb_le; lia).
  unfold Math_floor_div.
  destruct (Z.eqb_spec target 0); [lia |].
  now rewrite Z.div_small by lia.
Qed.

Lemma minSecondPathChunkLength_positive (target recorded : Z) :
  1 <= target -> recorded < 30 \/ target <= recorded ->
  exists k, minSecondPathChunkLength target recorded = Fin k /\ 1 <= k.
Proof.
  intros Ht H. unfold minSecondPathChunkLength, isLargeString.
  change (maxStringLengthForSecondPass / firstPassChunkLength) with 30.
  destruct (Z.leb_spec 30 recorded) as [Hl|Hs].
  - unfold Math_floor_div. destruct (Z.eqb_spec target 0); [lia |].
    exists (recorded / target). split; [reflexivity |].
    apply Z.div_le_lower_bound; lia.
  - eauto.
Qed.

Lemma ceiling_large (len : Z) :
  31000 < len <-> 30 <= ceiling len firstPassChunkLength - 2.
Proof.
  pose proof (ceiling_bounds len 1000 ltac:(lia)).
  unfold firstPassChunkLength. lia.
Qed.

(** What the first pass returns for a string of more than 1000 code
    points, in terms of the number [n] of chunks it cuts. *)
Lemma firstPass_sizing
  (target : Z) (S : jsstring) (n : Z) (fuel : nat) :
  firstPassChunkLength < Stringz.length S ->
  Math_ceil_div (Stringz.length S) firstPassChunkLength = Fin n ->
  (Z.to_nat n <= fuel)%nat ->
  exists tree : Node,
    firstPass target fuel (Literal (StringValue S))
    = Ok (tree, n - 2, minSecondPathChunkLength target (n - 2))
    /\ isLargeString (n - 2) = (32 <=? n)
    /\ minSecondPathChunkLength target (n - 2)
       = if 32 <=? n then Math_floor_div (n - 2) target else Fin target.
Proof.
  intros Hlen Hn Hfuel.
  rewrite Math_ceil_div_ceiling in Hn by (unfold firstPassChunkLength; lia).
  injection Hn as Hn.
  assert (Hplan : Z.of_nat (List.length (chunkPlan S firstPassChunkLength))
                  = n)
    by (rewrite chunkPlan_length by (unfold firstPassChunkLength; lia);
        exact Hn).
  assert (Hlarge : isLargeString (n - 2) = (32 <=? n)).
  { unfold isLargeString.
    change (maxStringLengthForSecondPass / firstPassChunkLength) with 30.
    destruct (Z.leb_spec 30 (n - 2)), (Z.leb_spec 32 n); auto; lia. }
  exists (splitTree S firstPassChunkLength). repeat split.
  - rewrite firstPass_long by assumption.
    replace (_ <=? fuel)%nat with true
      by (symmetry; apply Nat.leb_le; lia).
    cbv zeta. now rewrite Hn.
  - exact Hlarge.
  - unfold minSecondPathChunkLength. now rewrite Hlarge.
Qed.

Section TransformNode.

Variable target : Z.
Variable isProhibitedLiteralNode : Node -> Node -> bool.
Variables (s : jsstring) (parent : Node).
Hypothesis eligible :
  isProhibitedLiteralNode (Literal (StringValue s)) parent = false.

(** The transform of a string whose second-pass chunk length comes out
    as zero never returns. *)
Lemma transformNode_zero_diverges (fuel : nat) :
  31000 < Stringz.length s ->
  ceiling (Stringz.length s) firstPassChunkLength - 2 < target ->
  transformNode target isProhibitedLiteralNode fuel
    (Literal (StringValue s)) parent
  = OutOfFuel.
Proof.
  intros Hlen Ht. unfold transformNode. rewrite eligible.
  rewrite firstPass_long by (unfold firstPassChunkLength; lia).
  destruct (_ <=? fuel)%nat; [| reflexivity].
  cbv zeta. cbn [bind].
  rewrite minSecondPathChunkLength_zero
    by (split; [now apply ceiling_large | exact Ht]).
  unfold Estraverse.replace. rewrite replace_zero_diverges; [reflexivity |].
  intros leaf Hin. unfold firstPassChunkLength in *.
  rewrite splitTree_leaves in Hin by lia.
  apply in_map_iff in Hin as (c & <- & Hc).
  pose proof (chunkPlan_chunk_length s 1000 ltac:(lia)) as Hl.
  rewrite Forall_forall in Hl. specialize (Hl c Hc).
  exists c. split; [reflexivity | lia].
Qed.

(** In every other case it returns, and what it returns evaluates to the
    original string. *)
Lemma transformNode_returns :
  1 <= target ->
  Stringz.length s <= 31000
  \/ target <= ceiling (Stringz.length s) firstPassChunkLength - 2 ->
  exists tree,
    (exists fuel0 : nat, forall fuel : nat, (fuel0 <= fuel)%nat ->
       transformNode target isProhibitedLiteralNode fuel
         (Literal (StringValue s)) parent = Ok tree)
    /\ evaluate tree = Some s.
Proof.
  intros Ht Hcase. unfold transformNode. rewrite eligible.
  destruct (Z.le_gt_cases (Stringz.length s) firstPassChunkLength)
    as [Hshort|Hlong].
  - destruct (minSecondPathChunkLength_positive target 0 Ht ltac:(lia))
      as (k & Ek & Hk).
    destruct (replace_splitLeaves k (Literal (StringValue s)) Hk)
      as [fuel0 Hwalk].
    exists (splitLeaves k (Literal (StringValue s))). split.
    + exists fuel0. intros fuel Hfuel.
      rewrite firstPass_short by assumption. cbn [bind]. rewrite Ek.
      unfold Estraverse.replace.
      destruct (Hwalk fuel fuel Hfuel Hfuel) as [visits ->]. reflexivity.
    + now rewrite evaluate_splitLeaves.
  - set (recorded := ceiling (Stringz.length s) firstPassChunkLength - 2)
      in *.
    assert (Hrec : recorded < 30 \/ target <= recorded).
    { destruct Hcase as [H|H]; [left | now right].
      pose proof (ceiling_large (Stringz.length s)). fold recorded in H0.
      lia. }
    destruct (minSecondPathChunkLength_positive target recorded Ht Hrec)
      as (k & Ek & Hk).
    destruct (replace_splitLeaves k (splitTree s firstPassChunkLength) Hk)
      as [fuel0 Hwalk].
    exists (splitLeaves k (splitTree s firstPassChunkLength)). split.
    + exists (Nat.max fuel0
                (List.length (chunkPlan s firstPassChunkLength))).
      intros fuel Hfuel.
      rewrite firstPass_long by assumption.
      replace (_ <=? fuel)%nat with true
        by (symmetry; apply Nat.leb_le; lia).
      cbv zeta. fold recorded. cbn [bind]. rewrite Ek.
      unfold Estraverse.replace.
      destruct (Hwalk fuel fuel ltac:(lia) ltac:(lia)) as [visits ->].
      reflexivity.
    + rewrite evaluate_splitLeaves by assumption.
      apply splitTree_evaluate. unfold firstPassChunkLength in *. lia.
Qed.

End TransformNode.

End TransformFacts.

(** * The statements of the specification *)

Module SplitStringSpec.
Import Js Stringz ESTree Symbols Trees.
Import Segmentation.
Import StringzFacts ChunkingFacts SymbolFacts BuilderFacts TransformFacts.
Import SplitStringTransformer.

(** C3, as the code has it.  The routine measures and cuts in the
    symbols of [stringz], not in code points: a character together with
    the combining mark that follows it is one symbol.  For every symbol
    list [toArray] that is a segmentation, a string [S] and a chunk
    length [K] with [1 <= K < stringz.length(S)], [chunkString] returns
    (with fuel for one loop iteration per chunk) a list of exactly
    [ceil(stringz.length(S) / K)] chunks; their concatenation in order
    is [S], their symbols in order are the symbols of [S], their symbol
    lengths sum to the symbol length of [S] and their code-point lengths
    to its code-point length, none of them is empty, and no boundary
    between consecutive chunks lies between the two halves of a
    surrogate pair. *)
Theorem chunkString_round_trip_symbols
  (toArray : jsstring -> list jsstring) (S : jsstring) (K : Z) :
  SymbolSegmentation toArray ->
  1 <= K < OverSymbols.length toArray S ->
  exists chunks : list jsstring,
    (forall fuel : nat, (List.length chunks <= fuel)%nat ->
       OverSymbols.chunkString toArray fuel S
         (OverSymbols.length toArray S) (Fin K) = Some chunks)
    /\ Math_ceil_div (OverSymbols.length toArray S) K
       = Fin (Z.of_nat (List.length chunks))
    /\ (Z.of_nat (List.length chunks) - 1) * K
       < OverSymbols.length toArray S <= Z.of_nat (List.length chunks) * K
    /\ concat chunks = S
    /\ concat (List.map toArray chunks) = toArray S
    /\ sumZ (List.map (OverSymbols.length toArray) chunks)
       = OverSymbols.length toArray S
    /\ sumZ (List.map Stringz.length chunks) = Stringz.length S
    /\ Forall (fun chunk => chunk <> []) chunks
    /\ (forall before after : list jsstring,
          chunks = before ++ after ->
          ~ splitsSurrogatePair (concat before) (concat after)).
Proof.
  intros laws HK. assert (Hk : 1 <= K) by lia.
  set (L := OverSymbols.length toArray S) in *.
  assert (HL : 0 <= L) by lia.
  exists (chunkPlanOver toArray S (ceiling L K) K).
  pose proof (plan_length toArray S K Hk) as Hn. fold L in Hn.
  pose proof (plan_count toArray S K Hk) as [Hn0 Hb]. fold L in Hn0, Hb.
  pose proof (plan_concat toArray laws S K Hk) as Hcat. fold L in Hcat.
  pose proof (plan_boundaries toArray laws S K Hk) as Hpairs.
  fold L in Hpairs.
  split; [| split; [| split; [| split; [| split; [| split;
    [| split; [| split]]]]]]].
  - intros fuel Hfuel. rewrite chunkString_over by lia.
    rewrite chunks_over by lia.
    replace (Z.to_nat (ceiling L K) <=? fuel)%nat with true; [reflexivity |].
    symmetry. apply Nat.leb_le. lia.
  - rewrite Math_ceil_div_ceiling by lia. now rewrite Hn.
  - rewrite Hn. exact Hb.
  - exact Hcat.
  - now apply plan_whole_symbols.
  - now apply plan_total_length.
  - rewrite codePoints_sum by exact Hpairs. now rewrite Hcat.
  - now apply plan_nonempty.
  - exact Hpairs.
Qed.

(** The letter e with a combining acute accent followed by the letter x,
    cut in chunks of one symbol: two chunks, the accented letter and the
    x. *)
Lemma chunkString_round_trip_symbols_witness :
  exists chunks : list jsstring,
    OverSymbols.chunkString SymbolsWithMarks.toArray 2 accented 2 (Fin 1)
    = Some chunks
    /\ concat chunks = accented
    /\ List.length chunks = 2%nat.
Proof.
  destruct (chunkString_round_trip_symbols SymbolsWithMarks.toArray
              accented 1 marks_segmentation)
    as (chunks & Hrun & _ & Hcount & Hcat & _).
  - vm_compute. split; [discriminate | reflexivity].
  - assert (Hlen : List.length chunks = 2%nat)
      by (change (OverSymbols.length SymbolsWithMarks.toArray accented)
            with 2 in Hcount; lia).
    exists chunks. split; [| split; assumption].
    apply Hrun. rewrite Hlen. apply le_n.
Defined.

(** The same string has three code points, so the chunk length 1 is
    below its code-point length; the routine is given the symbol length
    2 and returns two chunks, the first of two code points, not the
    [ceil(3 / 1) = 3] chunks of one code point each.  With a chunk
    length of 2 it returns a single chunk, not [ceil(3 / 2) = 2]. *)
Lemma chunkString_counts_symbols :
  1 <= 1 < Stringz.length accented
  /\ OverSymbols.length SymbolsWithMarks.toArray accented = 2
  /\ OverSymbols.chunkString SymbolsWithMarks.toArray 2 accented
       (OverSymbols.length SymbolsWithMarks.toArray accented) (Fin 1)
     = Some [[0x65; 0x301]; [0x78]]
  /\ Math_ceil_div (Stringz.length accented) 1
     <> Fin (Z.of_nat (List.length [[0x65; 0x301]; [0x78]]))
  /\ Stringz.length [0x65; 0x301] = 2
  /\ OverSymbols.chunkString SymbolsWithMarks.toArray 1 accented
       (OverSymbols.length SymbolsWithMarks.toArray accented) (Fin 2)
     = Some [accented]
  /\ Math_ceil_div (Stringz.length accented) 2
     <> Fin (Z.of_nat (List.length [accented])).
Proof.
  repeat split; try reflexivity; discriminate.
Qed.

(** C6.  When the chunk length [K] is at least the code-point length of
    the string literal, the split returns the same literal node and an
    empty chunk list, whatever the fuel; so does the callback of the
    second pass, which keeps the node of that result. *)
Theorem split_noop_guard (fuel : nat) (S : jsstring) (K : Z) :
  Stringz.length S <= K ->
  transformLiteralNodeByChunkLength fuel (Literal (StringValue S)) (Fin K)
  = Ok (Literal (StringValue S), [])
  /\ secondPassEnter fuel (Fin K) (Literal (StringValue S))
     = Ok (Some (Literal (StringValue S))).
Proof.
  intros H.
  assert (E : transformLiteralNodeByChunkLength fuel
                (Literal (StringValue S)) (Fin K)
              = Ok (Literal (StringValue S), []))
    by (apply split_skipped; now apply Z.leb_le).
  split; [exact E |].
  rewrite secondPassEnter_literal, E. reflexivity.
Qed.

Lemma split_noop_guard_witness :
  transformLiteralNodeByChunkLength 0 (Literal (StringValue [97; 98; 99]))
    (Fin 3)
  = Ok (Literal (StringValue [97; 98; 99]), []).
Proof.
  apply (split_noop_guard 0 [97; 98; 99] 3). vm_compute. discriminate.
Defined.

(** C9.  The builder throws on a chunk list of fewer than two chunks.
    For a string literal and a chunk length with
    [1 <= K < codePointLength], the split never throws, whatever the
    fuel, and it returns once the fuel covers the chunk count. *)
Theorem builder_error_unreachable :
  (forall chunks : list jsstring,
     (List.length chunks < 2)%nat ->
     fst (transformStringChunksToBinaryExpressionNode chunks)
     = Throw "First and second chunks values should not be empty"%string)
  /\ (forall (S : jsstring) (K : Z),
        1 <= K < Stringz.length S ->
        (forall (fuel : nat) (message : String.string),
           transformLiteralNodeByChunkLength fuel
             (Literal (StringValue S)) (Fin K) <> Throw message)
        /\ (exists (fuel0 : nat) (tree : Node) (chunks : list jsstring),
              forall fuel : nat, (fuel0 <= fuel)%nat ->
                transformLiteralNodeByChunkLength fuel
                  (Literal (StringValue S)) (Fin K) = Ok (tree, chunks))).
Proof.
  split.
  - intros chunks H. now rewrite builder_few.
  - intros S K HK. split.
    + intros fuel message. rewrite split_guarded by assumption.
      destruct (_ <=? fuel)%nat; discriminate.
    + exists (List.length (chunkPlan S K)), (splitTree S K),
        (skipn 2 (chunkPlan S K)).
      intros fuel Hfuel. rewrite split_guarded by assumption.
      apply Nat.leb_le in Hfuel. now rewrite Hfuel.
Qed.

Lemma builder_error_unreachable_witness :
  fst (transformStringChunksToBinaryExpressionNode [[97]])
  = Throw "First and second chunks values should not be empty"%string
  /\ forall message : String.string,
       transformLiteralNodeByChunkLength 2
         (Literal (StringValue [97; 98; 99])) (Fin 2) <> Throw message.
Proof.
  destruct builder_error_unreachable as [Hfew Hguard]. split.
  - apply Hfew. simpl. apply le_n.
  - apply (Hguard [97; 98; 99] 2). vm_compute.
    split; [discriminate | reflexivity].
Defined.

(** C8.  For a string literal [S] and a chunk length [K] of at least 1,
    let the chunk list be the one [chunkString] returns for them, of
    size [n = ceil(stringz.length(S) / K)], whatever segmentation the
    symbols of [stringz] are.  If [n < 2] the split returns the original
    literal unchanged.  If [n = 2] it returns the single [+] expression
    with the first chunk on the left and the second on the right.  If
    [n > 2] it returns the left fold that extends that two-chunk tree by
    one [+] per remaining chunk, the chunk's literal on the right.  The
    leaves of the tree, from left to right, are the chunks in their
    order. *)
Theorem split_shape
  (toArray : jsstring -> list jsstring) (S : jsstring) (K : Z) :
  SymbolSegmentation toArray ->
  1 <= K ->
  exists chunks : list jsstring,
    (forall fuel : nat, (List.length chunks <= fuel)%nat ->
       OverSymbols.chunkString toArray fuel S
         (OverSymbols.length toArray S) (Fin K) = Some chunks)
    /\ Math_ceil_div (OverSymbols.length toArray S) K
       = Fin (Z.of_nat (List.length chunks))
    /\ forall fuel : nat, (List.length chunks <= fuel)%nat ->
         match chunks with
         | [] | [_] =>
             OverSymbols.transformLiteralNodeByChunkLength toArray fuel
               (Literal (StringValue S)) (Fin K)
             = Ok (Literal (StringValue S), [])
         | [first; second] =>
             OverSymbols.transformLiteralNodeByChunkLength toArray fuel
               (Literal (StringValue S)) (Fin K)
             = Ok (BinaryExpression "+"%string
                     (Literal (StringValue first))
                     (Literal (StringValue second)), [])
         | first :: second :: rest =>
             exists tree : Node,
               OverSymbols.transformLiteralNodeByChunkLength toArray fuel
                 (Literal (StringValue S)) (Fin K)
               = Ok (tree, rest)
               /\ tree
                  = fold_left
                      (fun built chunk =>
                         BinaryExpression "+"%string built
                           (Literal (StringValue chunk)))
                      rest
                      (BinaryExpression "+"%string
                         (Literal (StringValue first))
                         (Literal (StringValue second)))
               /\ leaves tree = List.map NodeFactory.literalNode chunks
         end.
Proof.
  intros laws HK.
  set (L := OverSymbols.length toArray S).
  assert (HL : 0 <= L) by (unfold L, OverSymbols.length; lia).
  exists (chunkPlanOver toArray S (ceiling L K) K).
  pose proof (plan_length toArray S K HK) as Hn. fold L in Hn.
  pose proof (plan_count toArray S K HK) as [Hn0 Hb]. fold L in Hn0, Hb.
  pose proof (plan_nonempty toArray laws S K HK) as Hne. fold L in Hne.
  assert (Hrun : forall fuel : nat,
            (List.length (chunkPlanOver toArray S (ceiling L K) K) <= fuel)%nat ->
            OverSymbols.chunkString toArray fuel S L (Fin K)
            = Some (chunkPlanOver toArray S (ceiling L K) K)).
  { intros fuel Hfuel. rewrite chunkString_over, chunks_over by lia.
    replace (Z.to_nat (ceiling L K) <=? fuel)%nat with true; [reflexivity |].
    symmetry. apply Nat.leb_le. lia. }
  split; [exact Hrun | split].
  - rewrite Math_ceil_div_ceiling by lia. now rewrite Hn.
  - intros fuel Hfuel. specialize (Hrun fuel Hfuel).
    unfold OverSymbols.transformLiteralNodeByChunkLength,
      isStringLiteralNode, ge.
    fold L. rewrite Hrun.
    destruct (Z.leb_spec L K) as [Hshort | Hlong].
    + destruct (chunkPlanOver toArray S (ceiling L K) K) as [|a [|b rest]];
        [reflexivity .. |].
      exfalso. simpl in Hn. nia.
    + destruct (chunkPlanOver toArray S (ceiling L K) K) as [|a [|b rest]];
        [simpl in Hn; nia .. |].
      inversion Hne as [|? ? Ha Hne']; subst.
      inversion Hne' as [|? ? Hb' _]; subst.
      rewrite builder_fold by assumption. cbn [bind].
      destruct rest as [|c rest]; [reflexivity |].
      eexists. split; [reflexivity | split; [reflexivity |]].
      fold extend. change (fun built chunk =>
                             BinaryExpression "+"%string built
                               (Literal (StringValue chunk))) with extend.
      now rewrite leaves_fold.
Qed.

(** The letter e with a combining acute accent followed by the letters
    x and y, with a chunk length of 1 and the symbols that join
    combining marks: three chunks, and the tree ((e + x) + y) with the
    accent in its first leaf. *)
Lemma split_shape_witness :
  OverSymbols.chunkString SymbolsWithMarks.toArray 3
    [0x65; 0x301; 0x78; 0x79] 3 (Fin 1)
  = Some [[0x65; 0x301]; [0x78]; [0x79]]
  /\ exists tree : Node,
       OverSymbols.transformLiteralNodeByChunkLength
         SymbolsWithMarks.toArray 3
         (Literal (StringValue [0x65; 0x301; 0x78; 0x79])) (Fin 1)
       = Ok (tree, [[0x79]])
       /\ tree
          = BinaryExpression "+"%string
              (BinaryExpression "+"%string
                 (Literal (StringValue [0x65; 0x301]))
                 (Literal (StringValue [0x78])))
              (Literal (StringValue [0x79])).
Proof.
  destruct (split_shape SymbolsWithMarks.toArray
              [0x65; 0x301; 0x78; 0x79] 1 marks_segmentation)
    as (chunks & Hrun & Hn & Hshape).
  - lia.
  - change (Math_ceil_div
              (OverSymbols.length SymbolsWithMarks.toArray
                 [0x65; 0x301; 0x78; 0x79]) 1)
      with (Fin 3) in Hn.
    assert (Hlen : List.length chunks = 3%nat) by (injection Hn; lia).
    rewrite Hlen in Hrun, Hshape.
    specialize (Hrun 3%nat (le_n 3)). specialize (Hshape 3%nat (le_n 3)).
    assert (E : chunks = [[0x65; 0x301]; [0x78]; [0x79]])
      by (vm_compute in Hrun; congruence).
    subst chunks. split; [exact Hrun |].
    destruct Hshape as (tree & Hsplit & Htree & _).
    exists tree. split; [exact Hsplit | exact Htree].
Defined.

(** C1, as the code has it.  For a string literal of more than 1000 code
    points whose first pass cuts it into [n = ceil(L / 1000)] chunks, the
    count that [transformNode] records is [n - 2], not [n]: the chunk
    array it measures is the one the builder has already taken the first
    two chunks from.  The string is classified as large exactly when
    that recorded count is at least 30, that is when [n >= 32], and the
    chunk length of the second pass is the floor of the recorded count
    by the target chunk length when large and the target chunk length
    otherwise. *)
Theorem firstPass_records_two_fewer
  (target : Z) (S : jsstring) (n : Z) (fuel : nat) :
  firstPassChunkLength < Stringz.length S ->
  Math_ceil_div (Stringz.length S) firstPassChunkLength = Fin n ->
  (Z.to_nat n <= fuel)%nat ->
  exists tree : Node,
    firstPass target fuel (Literal (StringValue S))
    = Ok (tree, n - 2, minSecondPathChunkLength target (n - 2))
    /\ isLargeString (n - 2) = (32 <=? n)
    /\ minSecondPathChunkLength target (n - 2)
       = if 32 <=? n then Math_floor_div (n - 2) target else Fin target.
Proof. apply firstPass_sizing. Qed.

(** A literal of 30000 code points and a target chunk length of 7: the
    recorded count is 28 and the string is not taken as large, so the
    second pass uses chunk length 7. *)
Lemma firstPass_records_two_fewer_witness :
  Math_ceil_div (Stringz.length (letters 30000)) firstPassChunkLength
  = Fin 30
  /\ exists tree : Node,
       firstPass 7 30 (Literal (StringValue (letters 30000)))
       = Ok (tree, 28, Fin 7).
Proof.
  assert (Hcount : Math_ceil_div (Stringz.length (letters 30000))
                     firstPassChunkLength = Fin 30)
    by (rewrite length_letters by lia; reflexivity).
  split; [exact Hcount |].
  destruct (firstPass_records_two_fewer 7 (letters 30000) 30 30)
    as (tree & Hrun & _).
  - rewrite length_letters by lia. reflexivity.
  - exact Hcount.
  - apply le_n.
  - exists tree. exact Hrun.
Defined.

(** C2, as the code has it.  For a string literal of code-point length
    exactly 50000 and a target chunk length of 5, the first pass cuts 50
    chunks, the recorded count is 48, the string is taken as large, and
    the chunk length of the second pass is [floor(48 / 5) = 9], not
    10. *)
Theorem sizing_50000_by_5 (S : jsstring) (fuel : nat) :
  Stringz.length S = 50000 ->
  (50 <= fuel)%nat ->
  Math_ceil_div (Stringz.length S) firstPassChunkLength = Fin 50
  /\ isLargeString 48 = true
  /\ exists tree : Node,
       firstPass 5 fuel (Literal (StringValue S)) = Ok (tree, 48, Fin 9).
Proof.
  intros Hlen Hfuel.
  assert (Hcount : Math_ceil_div (Stringz.length S) firstPassChunkLength
                   = Fin 50) by (rewrite Hlen; reflexivity).
  split; [exact Hcount |]. split; [reflexivity |].
  destruct (firstPass_sizing 5 S 50 fuel)
    as (tree & Hrun & _); auto.
  - rewrite Hlen. reflexivity.
  - exists tree. exact Hrun.
Qed.

Lemma sizing_50000_by_5_witness :
  exists tree : Node,
    firstPass 5 50 (Literal (StringValue (letters 50000)))
    = Ok (tree, 48, Fin 9).
Proof.
  apply (sizing_50000_by_5 (letters 50000) 50).
  - apply length_letters. lia.
  - apply le_n.
Defined.

(** C5, as the code has it.  When the string is large and the target
    chunk length exceeds the recorded chunk count, the chunk length of
    the second pass is 0.  The second pass then does not leave the
    first-pass chunk literals unchanged: the split of each of them with
    chunk length 0 never returns, and neither does [transformNode],
    whatever the fuel. *)
Theorem zero_chunk_length_diverges
  (target : Z) (isProhibitedLiteralNode : Node -> Node -> bool)
  (S : jsstring) (parent : Node) :
  isProhibitedLiteralNode (Literal (StringValue S)) parent = false ->
  31000 < Stringz.length S ->
  ceiling (Stringz.length S) firstPassChunkLength - 2 < target ->
  (forall (fuel : nat) (tree : Node) (recorded : Z) (chunkLength : number),
     firstPass target fuel (Literal (StringValue S))
     = Ok (tree, recorded, chunkLength) ->
     chunkLength = Fin 0
     /\ forall leaf : Node, In leaf (leaves tree) ->
          forall fuel' : nat,
            transformLiteralNodeByChunkLength fuel' leaf (Fin 0)
            = OutOfFuel)
  /\ (forall fuel : nat,
        transformNode target isProhibitedLiteralNode fuel
          (Literal (StringValue S)) parent = OutOfFuel).
Proof.
  intros Heligible Hlen Htarget. split.
  - intros fuel tree recorded chunkLength Hrun.
    rewrite firstPass_long in Hrun by (unfold firstPassChunkLength; lia).
    destruct (_ <=? fuel)%nat; [| discriminate].
    cbv zeta in Hrun. injection Hrun as <- <- <-. split.
    + apply minSecondPathChunkLength_zero.
      split; [now apply ceiling_large | exact Htarget].
    + intros leaf Hin fuel'. unfold firstPassChunkLength in *.
      rewrite splitTree_leaves in Hin by lia.
      apply in_map_iff in Hin as (c & <- & Hc).
      pose proof (chunkPlan_chunk_length S 1000 ltac:(lia)) as Hl.
      rewrite Forall_forall in Hl. specialize (Hl c Hc).
      apply split_zero_diverges. lia.
  - intros fuel. now apply transformNode_zero_diverges.
Qed.

(** A literal of 32000 code points with a target chunk length of 31:
    the recorded count is 30, the second-pass chunk length
    [floor(30 / 31)] is 0. *)
Lemma zero_chunk_length_diverges_witness :
  Stringz.length (letters 32000) = 32000
  /\ forall fuel : nat,
       transformNode 31 (fun _ _ => false) fuel
         (Literal (StringValue (letters 32000))) (Literal NullValue)
       = OutOfFuel.
Proof.
  assert (Hlen : Stringz.length (letters 32000) = 32000)
    by (apply length_letters; lia).
  split; [exact Hlen |].
  apply (zero_chunk_length_diverges 31 (fun _ _ => false)
           (letters 32000) (Literal NullValue)).
  - reflexivity.
  - rewrite Hlen. reflexivity.
  - rewrite Hlen. reflexivity.
Defined.

(** C4, as the code has it.  For an eligible string literal and a target
    chunk length of at least 1: when the string is not large, or the
    target chunk length does not exceed the recorded chunk count, the
    two-pass transform returns (given enough fuel) an expression whose
    evaluation is exactly the original string; for a large string with a
    target chunk length above the recorded count it returns no
    expression at all. *)
Theorem transformNode_equivalence
  (target : Z) (isProhibitedLiteralNode : Node -> Node -> bool)
  (S : jsstring) (parent : Node) :
  isProhibitedLiteralNode (Literal (StringValue S)) parent = false ->
  1 <= target ->
  (Stringz.length S <= 31000
   \/ target <= ceiling (Stringz.length S) firstPassChunkLength - 2 ->
   exists tree : Node,
     (exists fuel0 : nat, forall fuel : nat, (fuel0 <= fuel)%nat ->
        transformNode target isProhibitedLiteralNode fuel
          (Literal (StringValue S)) parent = Ok tree)
     /\ evaluate tree = Some S)
  /\ (31000 < Stringz.length S ->
      ceiling (Stringz.length S) firstPassChunkLength - 2 < target ->
      forall (fuel : nat) (tree : Node),
        transformNode target isProhibitedLiteralNode fuel
          (Literal (StringValue S)) parent <> Ok tree).
Proof.
  intros Heligible Htarget. split.
  - now apply transformNode_returns.
  - intros Hlen Hzero fuel tree.
    rewrite transformNode_zero_diverges by assumption. discriminate.
Qed.

(** A literal of 40000 code points with a target chunk length of 39. *)
Lemma transformNode_equivalence_witness :
  Stringz.length (letters 40000) = 40000
  /\ forall (fuel : nat) (tree : Node),
       transformNode 39 (fun _ _ => false) fuel
         (Literal (StringValue (letters 40000))) (Literal NullValue)
       <> Ok tree.
Proof.
  assert (Hlen : Stringz.length (letters 40000) = 40000)
    by (apply length_letters; lia).
  split; [exact Hlen |].
  apply (transformNode_equivalence 39 (fun _ _ => false)
           (letters 40000) (Literal NullValue)).
  - reflexivity.
  - lia.
  - rewrite Hlen. reflexivity.
  - rewrite Hlen. reflexivity.
Defined.




End SplitStringSpec.

(** ** The run orchestrator *)

Module OrchestratorSpec.
Import JavaScriptObfuscatorInternal Pipeline.

(** Case analysis on the outcome of the next external call. *)
Ltac destruct_call :=
  match goal with
  | |- context [match ?call with _ => _ end] =>
      lazymatch call with
      | context [match _ with _ => _ end] => fail
      | _ => first [destruct call as [[?|] ?] | destruct call]
      end
  end.

(** C10.  In a run of [obfuscate] the random generator is replaced by
    the one seeded from the configured seed exactly once, before the
    parser and everything after it, when the seed is not 0, and it is
    not replaced at all when the seed is 0: the parser is run on
    [new Chance(seed)] in the first case and on the generator the run
    was started with in the second, every later call is run on the
    generator the call before it left, and when all calls return the
    result of the run is what the corrector returns at the end of that
    chain.  The run makes the reseeding call first and only once.  Hence
    with a seed other than 0 two runs on the same source text and
    options end with the same result (generated code and position map),
    the same generator and the same calls, whatever generator each was
    started with. *)
Theorem obfuscate_reseeds_once_first
  (E : Externals) (options : IOptions E) (sourceCode : String.string) :
  (forall (g g1 g2 g3 g4 g5 g6 g7 g8 : RandomGenerator E)
     (astTree parentized obfuscatedAstTree : Program E)
     (storage initialized : CustomNodesStorage E)
     (stackTraceData : StackTraceData E)
     (generated : String.string) (rawMap : option (RawSourceMap E))
     (result : IObfuscationResult E),
     esprima_parse E sourceCode esprimaParams
       (if seed E options =? 0 then g else Chance E (seed E options))
     = (Some astTree, g1) ->
     NodeUtils_parentize E astTree g1 = (Some parentized, g2) ->
     CustomNodesStorage_new E options g2 = (Some storage, g3) ->
     StackTraceAnalyzer_analyze E parentized g3
     = (Some stackTraceData, g4) ->
     CustomNodesStorage_initialize E storage stackTraceData g4
     = (Some initialized, g5) ->
     Obfuscator_obfuscateAstTree E options parentized initialized g5
     = (Some obfuscatedAstTree, g6) ->
     escodegen_generate E obfuscatedAstTree
       (generateOptions E options sourceCode) g6
     = (Some (generated, rawMap), g7) ->
     SourceMapCorrector_correct E generated (mapText E rawMap)
       (String.append (sourceMapBaseUrl E options)
          (sourceMapFileName E options))
       (sourceMapMode E options) g7
     = (Some result, g8) ->
     obfuscate E options sourceCode g
     = (Some result, g8,
        (if seed E options =? 0 then []
         else [SetRandomGenerator (seed E options)])
        ++ [EsprimaParse; Parentize; NewCustomNodesStorage; Analyze;
            InitializeStorage; ObfuscateAstTree; EscodegenGenerate;
            Correct]))
  /\ (forall g : RandomGenerator E,
       exists rest : list Call,
         snd (obfuscate E options sourceCode g)
         = (if seed E options =? 0 then []
            else [SetRandomGenerator (seed E options)])
           ++ EsprimaParse :: rest
         /\ forallb (fun call => negb (isSetRandomGenerator call))
              (EsprimaParse :: rest) = true)
  /\ (seed E options <> 0 ->
      forall g1 g2 : RandomGenerator E,
        obfuscate E options sourceCode g1
        = obfuscate E options sourceCode g2).
Proof.
  split; [| split].
  - intros g g1 g2 g3 g4 g5 g6 g7 g8 astTree parentized obfuscatedAstTree
      storage initialized stackTraceData generated rawMap result
      Hparse Hparentize Hnew Hanalyze Hinit Hobfuscate Hgenerate Hcorrect.
    unfold generateOptions, mapText in *.
    unfold obfuscate, generateCode, getObfuscationResult, andThen,
      external, ret, setRandomGenerator.
    destruct (seed E options =? 0), (sourceMap E options);
      cbn [escodegenParams verbatim sourceMapWithCode sourceMapOption
           sourceContent formatCompact];
      rewrite Hparse, Hparentize, Hnew, Hanalyze, Hinit, Hobfuscate,
        Hgenerate;
      cbn [fst snd code map]; rewrite Hcorrect; reflexivity.
  - intros g.
    unfold obfuscate, generateCode, getObfuscationResult, andThen,
      external, ret, setRandomGenerator.
    destruct (seed E options =? 0); repeat destruct_call;
      cbn [snd app]; eexists; split; reflexivity.
  - intros Hseed g1 g2. unfold obfuscate.
    destruct (Z.eqb_spec (seed E options) 0); [contradiction |].
    reflexivity.
Qed.

(** A run with seed 5 on the counter instance: the obfuscator advances
    the seeded generator and the corrector reads it, whatever generator
    the run was started with. *)
Lemma obfuscate_reseeds_once_first_witness :
  obfuscate counterExternals 5 "f()"%string 0
  = (Some ("f()"%string, 6), 6,
     [SetRandomGenerator 5; EsprimaParse; Parentize; NewCustomNodesStorage;
      Analyze; InitializeStorage; ObfuscateAstTree; EscodegenGenerate;
      Correct])
  /\ obfuscate counterExternals 5 "f()"%string 0
     = obfuscate counterExternals 5 "f()"%string 1.
Proof.
  destruct (obfuscate_reseeds_once_first counterExternals 5 "f()"%string)
    as (Hchain & _ & Hsame).
  split.
  - apply (Hchain 0 5 5 5 5 5 6 6 6 ("f()"%string, 0) ("f()"%string, 0)
             ("f()"%string, 5) tt tt tt "f()"%string None
             ("f()"%string, 6)); reflexivity.
  - apply Hsame. simpl. discriminate.
Defined.

End OrchestratorSpec.

(** * Further properties of the code *)

(** ** The chunking routine and the builder *)

Module ChunkProperties.
Import Js Stringz ESTree Symbols Trees.
Import Segmentation.
Import StringzFacts ChunkingFacts SymbolFacts BuilderFacts TransformFacts.
Import SplitStringTransformer.

Lemma ceiling_nonneg (a b : Z) : 0 <= a -> 0 < b -> 0 <= ceiling a b.
Proof.
  intros Ha Hb. pose proof (ceiling_bounds a b Hb). nia.
Qed.

Lemma ceiling_nonpos (a b : Z) : 0 <= a -> b < 0 -> ceiling a b <= 0.
Proof.
  intros Ha Hb. unfold ceiling.
  pose proof (Z.div_mod (- a) b ltac:(lia)) as E.
  pose proof (Z.mod_neg_bound (- a) b Hb) as R.
  nia.
Qed.

(** X1.  [chunkString] trusts the length it is given, whatever
    segmentation the symbols of [stringz] are: for a chunk size of at
    least 1 and any declared length [len >= 0] it returns exactly
    [ceil(len / chunkSize)] chunks; the chunk at index [i] is
    [substr(string, i * chunkSize, chunkSize)], and it is empty exactly
    when [i * chunkSize] is not below the real symbol length, so a
    declared length beyond the real one only adds empty chunks at the
    end; the chunks concatenate to the first
    [ceil(len / chunkSize) * chunkSize] symbols of the string, the whole
    string when the declared length is not less than the real one. *)
Theorem chunkString_declared_length
  (toArray : jsstring -> list jsstring)
  (fuel : nat) (s : jsstring) (len k : Z) :
  SymbolSegmentation toArray ->
  0 <= len -> 1 <= k -> (Z.to_nat len <= fuel)%nat ->
  exists chunks : list jsstring,
    OverSymbols.chunkString toArray fuel s len (Fin k) = Some chunks
    /\ Math_ceil_div len k = Fin (Z.of_nat (List.length chunks))
    /\ (forall i : nat, (i < List.length chunks)%nat ->
          nth i chunks []
          = OverSymbols.substr toArray s (Z.of_nat i * k) k
          /\ (nth i chunks [] = []
              <-> OverSymbols.length toArray s <= Z.of_nat i * k))
    /\ concat chunks
       = OverSymbols.substr toArray s 0 (Z.of_nat (List.length chunks) * k)
    /\ (OverSymbols.length toArray s <= len -> concat chunks = s).
Proof.
  intros laws Hlen Hk Hfuel.
  pose proof (ceiling_bounds len k ltac:(lia)) as Hb.
  pose proof (ceiling_nonneg len k Hlen ltac:(lia)) as Hn.
  set (n := ceiling len k) in *.
  exists (chunkPlanOver toArray s n k).
  assert (Hcount : Z.of_nat (List.length (chunkPlanOver toArray s n k)) = n)
    by (unfold chunkPlanOver; rewrite length_map, chunksOf_length; lia).
  assert (Hcat : concat (chunkPlanOver toArray s n k)
                 = concat (firstn (Z.to_nat (n * k)) (toArray s))).
  { unfold chunkPlanOver. rewrite concat_map_concat, concat_chunksOf.
    now rewrite Z2Nat.inj_mul by lia. }
  split; [| split; [| split; [| split]]].
  - rewrite chunkString_over, chunks_over by lia. fold n.
    replace (Z.to_nat n <=? fuel)%nat with true; [reflexivity |].
    symmetry. apply Nat.leb_le. nia.
  - rewrite Math_ceil_div_ceiling by lia. now rewrite Hcount.
  - intros i Hi.
    assert (Hin : (i < Z.to_nat n)%nat) by lia.
    assert (Hchunk : nth i (chunkPlanOver toArray s n k) []
                     = concat (firstn (Z.to_nat k)
                                 (skipn (i * Z.to_nat k) (toArray s)))).
    { unfold chunkPlanOver. change (@nil Z) with (@concat Z []).
      now rewrite map_nth, nth_groups. }
    rewrite Hchunk. split.
    + rewrite substr_over by lia. do 3 f_equal. lia.
    + unfold OverSymbols.length. split.
      * intros Hempty. apply concat_nil_nonempty in Hempty;
          [| apply Forall_run, (symbols_nonempty _ laws s)].
        apply (f_equal (@List.length jsstring)) in Hempty.
        rewrite length_firstn, length_skipn in Hempty. simpl in Hempty.
        nia.
      * intros Hpast. rewrite skipn_all2 by nia. now rewrite firstn_nil.
  - rewrite Hcount, Hcat. rewrite substr_over by nia. reflexivity.
  - intros Hreal. rewrite Hcat, firstn_all2.
    + apply (symbols_concat _ laws).
    + unfold OverSymbols.length in Hreal. nia.
Qed.

(** The letter e with a combining acute accent followed by the letter x,
    declared with its three code points and cut in chunks of one symbol:
    the third chunk is empty. *)
Lemma chunkString_declared_length_witness :
  OverSymbols.chunkString SymbolsWithMarks.toArray 3 accented 3 (Fin 1)
  = Some [[0x65; 0x301]; [0x78]; []].
Proof.
  destruct (chunkString_declared_length SymbolsWithMarks.toArray 3
              accented 3 1 marks_segmentation)
    as (chunks & Hrun & _); [lia | lia | apply le_n |].
  rewrite Hrun. vm_compute in Hrun. symmetry. exact Hrun.
Defined.

(** X2.  When [chunkString] is given the real symbol length [L] of the
    string and a chunk size of at least 1, the chunk at index [i] has
    exactly [min(chunkSize, L - i * chunkSize)] symbols, whatever
    segmentation the symbols of [stringz] are: every chunk but the last
    is full and the last holds the remainder. *)
Theorem chunkString_chunk_sizes
  (toArray : jsstring -> list jsstring)
  (fuel : nat) (S : jsstring) (K : Z) (chunks : list jsstring) (i : nat) :
  SymbolSegmentation toArray ->
  1 <= K ->
  OverSymbols.chunkString toArray fuel S (OverSymbols.length toArray S)
    (Fin K) = Some chunks ->
  (i < List.length chunks)%nat ->
  OverSymbols.length toArray (nth i chunks [])
  = Z.min K (OverSymbols.length toArray S - Z.of_nat i * K).
Proof.
  intros laws HK Hrun Hi.
  assert (HL : 0 <= OverSymbols.length toArray S)
    by (unfold OverSymbols.length; lia).
  rewrite chunkString_over, chunks_over in Hrun by lia.
  destruct (_ <=? fuel)%nat; [| discriminate].
  injection Hrun as <-.
  now apply plan_chunk_symbols.
Qed.

(** The accented letter and the x, in chunks of one symbol: the first
    chunk is one symbol of two code points. *)
Lemma chunkString_chunk_sizes_witness :
  OverSymbols.length SymbolsWithMarks.toArray
    (nth 0 [[0x65; 0x301]; [0x78]] [])
  = Z.min 1 (OverSymbols.length SymbolsWithMarks.toArray accented - 0 * 1)
  /\ Stringz.length (nth 0 [[0x65; 0x301]; [0x78]] []) = 2.
Proof.
  split; [| reflexivity].
  apply (chunkString_chunk_sizes SymbolsWithMarks.toArray 2 accented 1
           [[0x65; 0x301]; [0x78]] 0 marks_segmentation).
  - lia.
  - vm_compute. reflexivity.
  - simpl. lia.
Defined.

(** A negative chunk size: the count is not positive and the loop body
    never runs. *)
Lemma chunkString_negative (fuel : nat) (s : jsstring) (len k : Z) :
  0 <= len -> k < 0 -> chunkString fuel s len (Fin k) = Some [].
Proof.
  intros Hlen Hk. unfold chunkString.
  rewrite Math_ceil_div_ceiling by lia.
  pose proof (ceiling_nonpos len k Hlen Hk) as Hc.
  assert (E : (0 <? ceiling len k) = false) by (apply Z.ltb_ge; lia).
  destruct fuel; simpl; now rewrite E.
Qed.

(** X3.  A negative chunk length is not caught by the no-op guard: for
    every string literal [chunkString] returns no chunk at all and the
    split throws the builder's error, whatever the fuel. *)
Theorem split_negative_chunk_length_throws
  (fuel : nat) (S : jsstring) (K : Z) :
  K < 0 ->
  chunkString fuel S (Stringz.length S) (Fin K) = Some []
  /\ transformLiteralNodeByChunkLength fuel (Literal (StringValue S)) (Fin K)
     = Throw "First and second chunks values should not be empty"%string.
Proof.
  intros HK.
  assert (Hlen : 0 <= Stringz.length S) by (unfold Stringz.length; lia).
  split; [now apply chunkString_negative |].
  unfold transformLiteralNodeByChunkLength, isStringLiteralNode, ge.
  replace (Stringz.length S <=? K) with false
    by (symmetry; apply Z.leb_gt; lia).
  now rewrite chunkString_negative.
Qed.

Lemma split_negative_chunk_length_throws_witness :
  transformLiteralNodeByChunkLength 0 (Literal (StringValue [97; 98]))
    (Fin (-1))
  = Throw "First and second chunks values should not be empty"%string.
Proof.
  apply (split_negative_chunk_length_throws 0 [97; 98] (-1)). lia.
Defined.

Lemma height_fold (rest : list jsstring) :
  forall init : Node,
    height (fold_left extend rest init)
    = (List.length rest + height init)%nat.
Proof.
  induction rest as [|c rest IH]; intros init; simpl; [reflexivity |].
  rewrite IH. simpl. rewrite Nat.max_0_r. lia.
Qed.

(** What the builder returns when it returns. *)
Lemma builder_returns (chunks : list jsstring) (tree : Node) :
  fst (transformStringChunksToBinaryExpressionNode chunks) = Ok tree ->
  exists a b rest,
    chunks = a :: b :: rest /\ a <> [] /\ b <> []
    /\ tree = fold_left extend rest
                (BinaryExpression "+"%string (Literal (StringValue a))
                   (Literal (StringValue b))).
Proof.
  destruct chunks as [|a [|b rest]].
  - rewrite builder_few by (simpl; lia). discriminate.
  - rewrite builder_few by (simpl; lia). discriminate.
  - destruct a as [|u a].
    + rewrite builder_empty_chunk by auto. discriminate.
    + destruct b as [|v b].
      * rewrite builder_empty_chunk by auto. discriminate.
      * rewrite builder_fold by discriminate. simpl.
        intros E. injection E as <-.
        exists (u :: a), (v :: b), rest.
        repeat split; discriminate.
Qed.

Lemma builder_evaluate (chunks : list jsstring) (tree : Node) :
  fst (transformStringChunksToBinaryExpressionNode chunks) = Ok tree ->
  evaluate tree = Some (concat chunks).
Proof.
  intros H. apply builder_returns in H as (a & b & rest & -> & _ & _ & ->).
  rewrite (evaluate_fold rest _ (a ++ b)) by reflexivity.
  simpl. now rewrite app_assoc.
Qed.

(** X4.  Whenever the builder returns a tree, evaluating the tree gives
    the concatenation of the chunks it was given, in their order. *)
Theorem builder_evaluates_to_concatenation
  (chunks : list jsstring) (tree : Node) :
  fst (transformStringChunksToBinaryExpressionNode chunks) = Ok tree ->
  evaluate tree = Some (concat chunks).
Proof.
  intros H.
  destruct (builder_returns chunks tree H)
    as (a & b & rest & Echunks & _ & _ & Etree).
  subst chunks tree.
  rewrite (evaluate_fold rest _ (a ++ b)) by reflexivity.
  simpl. now rewrite app_assoc.
Qed.

Lemma builder_evaluates_to_concatenation_witness :
  evaluate
    (BinaryExpression "+"%string
       (BinaryExpression "+"%string (Literal (StringValue [97]))
          (Literal (StringValue [98])))
       (Literal (StringValue [99])))
  = Some (concat [[97]; [98]; [99]]).
Proof.
  apply (builder_evaluates_to_concatenation [[97]; [98]; [99]]).
  reflexivity.
Defined.

(** X5.  The tree the builder returns for [n] chunks has [n] leaves and
    height [n - 1]: the nesting depth of the concatenation grows by one
    with every chunk. *)
Theorem builder_height (chunks : list jsstring) (tree : Node) :
  fst (transformStringChunksToBinaryExpressionNode chunks) = Ok tree ->
  List.length (leaves tree) = List.length chunks
  /\ S (height tree) = List.length chunks.
Proof.
  intros H. apply builder_returns in H as (a & b & rest & -> & _ & _ & ->).
  rewrite leaves_fold, height_fold, length_app, length_map. simpl. lia.
Qed.

Lemma builder_height_witness :
  List.length
    (leaves (BinaryExpression "+"%string (Literal (StringValue [97]))
               (Literal (StringValue [98]))))
  = List.length [[97]; [98]]
  /\ S (height (BinaryExpression "+"%string (Literal (StringValue [97]))
                  (Literal (StringValue [98]))))
     = List.length [[97]; [98]].
Proof.
  apply (builder_height [[97]; [98]]). reflexivity.
Defined.

Lemma builder_array (chunks : list jsstring) :
  snd (transformStringChunksToBinaryExpressionNode chunks) = skipn 2 chunks.
Proof.
  unfold transformStringChunksToBinaryExpressionNode.
  destruct chunks as [|a [|b rest]]; simpl.
  - reflexivity.
  - destruct a; reflexivity.
  - destruct a, b; reflexivity.
Qed.

(** X6.  The builder always removes the first two elements of the array
    it is given (all of them when there are fewer), also when it throws:
    the caller's array is left as [chunks.slice(2)]. *)
Theorem builder_shifts_two (chunks : list jsstring) :
  snd (transformStringChunksToBinaryExpressionNode chunks) = skipn 2 chunks.
Proof.
  destruct chunks as [|a [|b rest]].
  - reflexivity.
  - rewrite builder_few by (simpl; lia). reflexivity.
  - destruct a as [|u a]; [now rewrite builder_empty_chunk by auto |].
    destruct b as [|v b]; [now rewrite builder_empty_chunk by auto |].
    now rewrite builder_fold by discriminate.
Qed.

End ChunkProperties.

(** ** The split of a literal, the two passes and the visitor *)

Module TransformProperties.
Import Js Stringz ESTree Symbols Trees Sizing.
Import StringzFacts ChunkingFacts BuilderFacts TransformFacts.
Import ChunkProperties SplitStringTransformer SplitStringVisitor.

Lemma isStringLiteralNode_some (node : Node) (s : jsstring) :
  isStringLiteralNode node = Some s -> node = Literal (StringValue s).
Proof.
  destruct node as [[| | |]|]; simpl; intros E; try discriminate.
  now injection E as ->.
Qed.

(** Whatever a split returns has the value of the node it was given. *)
Lemma split_sound (fuel : nat) (node : Node) (K : number)
  (tree : Node) (chunks : list jsstring) :
  transformLiteralNodeByChunkLength fuel node K = Ok (tree, chunks) ->
  evaluate tree = evaluate node.
Proof.
  unfold transformLiteralNodeByChunkLength.
  destruct (isStringLiteralNode node) as [s|] eqn:Es;
    [| intros E; now injection E as <- _].
  apply isStringLiteralNode_some in Es. subst node.
  assert (Hlen : 0 <= Stringz.length s) by (unfold Stringz.length; lia).
  destruct (ge K (Fin (Stringz.length s))) eqn:G;
    [intros E; now injection E as <- _ |].
  destruct K as [k | | |]; simpl in G; try discriminate;
    try (simpl; discriminate).
  apply Z.leb_gt in G.
  destruct (Z.lt_trichotomy k 0) as [Hneg | [-> | Hpos]].
  - rewrite chunkString_negative by assumption. simpl. discriminate.
  - rewrite chunkString_zero_diverges by assumption. discriminate.
  - rewrite chunkString_chunkPlan by lia.
    destruct (_ <=? fuel)%nat; [| discriminate].
    destruct (transformStringChunksToBinaryExpressionNode (chunkPlan s k))
      as [built rest] eqn:Eb.
    destruct built as [t | |]; simpl; try discriminate.
    intros E. injection E as <- _.
    rewrite (builder_evaluate (chunkPlan s k) t) by (now rewrite Eb).
    simpl. now rewrite chunkPlan_concat by lia.
Qed.

(** Whatever the second pass returns has the value of the tree it was
    started on. *)
Lemma replace_sound (F : nat) (K : number) (fuel : nat) :
  forall (tree tree' : Node) (visits : list Node),
    Estraverse.replace_visits fuel (secondPassEnter F K) tree
    = Ok (tree', visits) ->
    evaluate tree' = evaluate tree.
Proof.
  induction fuel as [|fuel IH]; intros tree tree' visits H;
    [discriminate |].
  rewrite replace_visits_step in H.
  destruct (secondPassEnter F K tree) as [target | |] eqn:Ecb;
    try discriminate.
  cbn [bind] in H. cbv zeta in H.
  set (node' := match target with Some t => t | None => tree end) in *.
  assert (Hnode : evaluate node' = evaluate tree).
  { destruct tree as [value | operator lhs rhs].
    - rewrite secondPassEnter_literal in Ecb.
      destruct (transformLiteralNodeByChunkLength F (Literal value) K)
        as [[t c] | |] eqn:Es; try discriminate.
      simpl in Ecb. injection Ecb as <-. subst node'. cbn [fst].
      exact (split_sound _ _ _ _ _ Es).
    - simpl in Ecb. injection Ecb as <-. reflexivity. }
  rewrite <- Hnode. clearbody node'.
  destruct node' as [value | operator lhs rhs].
  - now injection H as <- _.
  - destruct (Estraverse.replace_visits fuel _ lhs)
      as [[l vl] | |] eqn:El; try discriminate.
    destruct (Estraverse.replace_visits fuel _ rhs)
      as [[r vr] | |] eqn:Er; try discriminate.
    simpl in H. injection H as <- _.
    simpl. now rewrite (IH _ _ _ El), (IH _ _ _ Er).
Qed.

Section Soundness.

Variable target : Z.
Variable isProhibitedLiteralNode : Node -> Node -> bool.

Lemma transformNode_sound (fuel : nat) (literalNode parent tree : Node) :
  transformNode target isProhibitedLiteralNode fuel literalNode parent
  = Ok tree ->
  evaluate tree = evaluate literalNode.
Proof.
  unfold transformNode, firstPass.
  destruct (isProhibitedLiteralNode literalNode parent);
    [intros E; now injection E as <- |].
  destruct (transformLiteralNodeByChunkLength fuel literalNode _)
    as [[t c] | |] eqn:Es; try discriminate.
  cbn [bind fst snd]. unfold Estraverse.replace.
  destruct (Estraverse.replace_visits fuel _ t)
    as [[t' v] | |] eqn:Ew; try discriminate.
  simpl. intros E. injection E as <-.
  rewrite (replace_sound _ _ _ _ _ _ Ew).
  eapply split_sound; eauto.
Qed.

(** X7.  Whatever [transformNode] returns, for any literal (prohibited
    or not), any target chunk length and any fuel, evaluates to the same
    value as the literal it was given: the transform never returns an
    expression of a different value. *)
Theorem transformNode_preserves_value
  (fuel : nat) (literalNode parent tree : Node) :
  transformNode target isProhibitedLiteralNode fuel literalNode parent
  = Ok tree ->
  evaluate tree = evaluate literalNode.
Proof.
  unfold transformNode, firstPass.
  destruct (isProhibitedLiteralNode literalNode parent);
    [intros E; now injection E as <- |].
  destruct (transformLiteralNodeByChunkLength fuel literalNode _)
    as [[first chunks] | |] eqn:Efirst; try discriminate.
  cbn [bind fst snd]. unfold Estraverse.replace.
  destruct (Estraverse.replace_visits fuel _ first)
    as [[second visits] | |] eqn:Esecond; try discriminate.
  simpl. intros E. injection E as <-.
  transitivity (evaluate first).
  - exact (replace_sound _ _ _ _ _ _ Esecond).
  - exact (split_sound _ _ _ _ _ Efirst).
Qed.

(** X8.  [getVisitor] gives a visitor exactly when [splitStrings] is
    set and the stage is [Converting].  The [leave] callback of that
    visitor returns no replacement for a node without a parent and for
    a node that is not a literal; whenever it returns a replacement,
    the node is a literal that has a parent and the replacement
    evaluates to the same value as the node. *)
Theorem visitor_replaces_literals_only
  (splitStrings : bool) (stage : NodeTransformationStage) :
  ((exists visitor : IVisitor,
      getVisitor splitStrings target isProhibitedLiteralNode stage
      = Some visitor)
   <-> splitStrings = true /\ stage = Converting)
  /\ forall visitor : IVisitor,
       getVisitor splitStrings target isProhibitedLiteralNode stage
       = Some visitor ->
       (forall (fuel : nat) (node : Node) (parentNode : option Node),
          parentNode = None \/ NodeGuards.isLiteralNode node = false ->
          leave visitor fuel node parentNode = Ok None)
       /\ (forall (fuel : nat) (node : Node) (parentNode : option Node)
                  (replacement : Node),
             leave visitor fuel node parentNode = Ok (Some replacement) ->
             parentNode <> None
             /\ NodeGuards.isLiteralNode node = true
             /\ evaluate replacement = evaluate node).
Proof.
  split.
  - split.
    + intros [visitor E]. unfold getVisitor in E.
      destruct splitStrings; [| discriminate].
      destruct stage; try discriminate. auto.
    + intros [-> ->]. unfold getVisitor. simpl. eauto.
  - intros visitor E. unfold getVisitor in E.
    destruct splitStrings; [| discriminate].
    destruct stage; try discriminate. simpl in E.
    injection E as <-. split.
    + intros fuel node parentNode [-> | Hnode]; cbn [leave];
        [reflexivity |].
      rewrite Hnode. now destruct parentNode.
    + intros fuel node parentNode replacement. cbn [leave].
      destruct parentNode as [parent|]; [| discriminate].
      destruct (NodeGuards.isLiteralNode node); [| discriminate].
      destruct (transformNode target isProhibitedLiteralNode fuel node
                  parent) as [t | |] eqn:Et; try discriminate.
      simpl. intros E. injection E as <-.
      repeat split; try discriminate.
      eapply transformNode_sound; eauto.
Qed.

End Soundness.

Lemma transformNode_preserves_value_witness :
  evaluate
    (BinaryExpression "+"%string (Literal (StringValue [97]))
       (Literal (StringValue [98])))
  = evaluate (Literal (StringValue [97; 98])).
Proof.
  apply (transformNode_preserves_value 1 (fun _ _ => false) 3
           (Literal (StringValue [97; 98])) (Literal NullValue)).
  reflexivity.
Defined.

(** With [splitStrings] set, the visitor of the converting stage
    replaces the literal ab under a parent, for a target chunk length of
    1, by a tree of the same value. *)
Lemma visitor_replaces_literals_only_witness :
  exists visitor : IVisitor,
    getVisitor true 1 (fun _ _ => false) Converting = Some visitor
    /\ leave visitor 3 (Literal (StringValue [97; 98])) None = Ok None
    /\ evaluate
         (BinaryExpression "+"%string (Literal (StringValue [97]))
            (Literal (StringValue [98])))
       = evaluate (Literal (StringValue [97; 98])).
Proof.
  destruct (visitor_replaces_literals_only 1 (fun _ _ => false) true
              Converting) as [[_ Hexists] Hleave].
  destruct (Hexists (conj eq_refl eq_refl)) as [visitor Ev].
  destruct (Hleave visitor Ev) as [Hnone Hsome].
  exists visitor. split; [exact Ev | split].
  - apply Hnone. now left.
  - apply (Hsome 3%nat (Literal (StringValue [97; 98]))
             (Some (Literal NullValue))).
    unfold getVisitor in Ev. simpl in Ev. injection Ev as <-. reflexivity.
Defined.

End TransformProperties.

(** ** What the two passes return *)

Module SizingProperties.
Import Js Stringz ESTree Symbols Trees Sizing.
Import StringzFacts ChunkingFacts BuilderFacts TransformFacts.
Import ChunkProperties TransformProperties SplitStringTransformer.

(** With a chunk length that is not negative the split never throws. *)
Lemma split_no_throw (fuel : nat) (node : Node) (k : Z)
  (message : String.string) :
  0 <= k ->
  transformLiteralNodeByChunkLength fuel node (Fin k) <> Throw message.
Proof.
  intros Hk.
  destruct (isStringLiteralNode node) as [s|] eqn:Es.
  - apply isStringLiteralNode_some in Es. subst node.
    destruct (Z.le_gt_cases (Stringz.length s) k) as [Hle | Hgt].
    + rewrite split_skipped by (now apply Z.leb_le). discriminate.
    + destruct (Z.eq_dec k 0) as [-> | Hpos].
      * rewrite split_zero_diverges by assumption. discriminate.
      * rewrite split_guarded by lia.
        destruct (_ <=? fuel)%nat; discriminate.
  - unfold transformLiteralNodeByChunkLength. rewrite Es. discriminate.
Qed.

Lemma secondPassEnter_no_throw (F : nat) (k : Z) (node : Node)
  (message : String.string) :
  0 <= k -> secondPassEnter F (Fin k) node <> Throw message.
Proof.
  intros Hk. unfold secondPassEnter.
  destruct (NodeGuards.isLiteralNode node); [| discriminate].
  pose proof (split_no_throw F node k message Hk) as H.
  destruct (transformLiteralNodeByChunkLength F node (Fin k))
    as [r | m |]; simpl; try discriminate.
  intros E. injection E as ->. now apply H.
Qed.

Lemma replace_no_throw (F : nat) (k : Z) (fuel : nat) :
  0 <= k ->
  forall (tree : Node) (message : String.string),
    Estraverse.replace_visits fuel (secondPassEnter F (Fin k)) tree
    <> Throw message.
Proof.
  intros Hk. induction fuel as [|fuel IH]; intros tree message;
    [discriminate |].
  rewrite replace_visits_step.
  pose proof (secondPassEnter_no_throw F k tree message Hk) as Hcb.
  destruct (secondPassEnter F (Fin k) tree) as [target | m |];
    simpl; try discriminate.
  - destruct (match target with Some t => t | None => tree end)
      as [value | operator lhs rhs]; [discriminate |].
    pose proof (IH lhs message) as Hl. pose proof (IH rhs message) as Hr.
    destruct (Estraverse.replace_visits fuel _ lhs) as [l | ml |];
      simpl; try discriminate.
    + destruct (Estraverse.replace_visits fuel _ rhs) as [r | mr |];
        simpl; try discriminate.
      intros E. injection E as ->. now apply Hr.
    + intros E. injection E as ->. now apply Hl.
  - intros E. injection E as ->. now apply Hcb.
Qed.

Lemma minSecondPathChunkLength_nonneg (target recorded : Z) :
  1 <= target -> 0 <= recorded ->
  exists k, minSecondPathChunkLength target recorded = Fin k /\ 0 <= k.
Proof.
  intros Ht Hr. unfold minSecondPathChunkLength, Math_floor_div.
  destruct (isLargeString recorded); [| exists target; split; [auto | lia]].
  destruct (Z.eqb_spec target 0); [lia |].
  exists (recorded / target). split; [reflexivity |].
  apply Z.div_pos; lia.
Qed.

(** X9.  With a target chunk length of at least 1, [transformNode]
    never throws: for every node, every parent and every amount of fuel
    its outcome is a returned tree or no return at all, never the
    builder's error. *)
Theorem transformNode_never_throws
  (target : Z) (isProhibitedLiteralNode : Node -> Node -> bool)
  (fuel : nat) (literalNode parent : Node) (message : String.string) :
  1 <= target ->
  transformNode target isProhibitedLiteralNode fuel literalNode parent
  <> Throw message.
Proof.
  intros Ht. unfold transformNode, firstPass.
  destruct (isProhibitedLiteralNode literalNode parent); [discriminate |].
  pose proof (split_no_throw fuel literalNode firstPassChunkLength message
                ltac:(unfold firstPassChunkLength; lia)) as Hfirst.
  destruct (transformLiteralNodeByChunkLength fuel literalNode _)
    as [[t c] | m |]; cbn [bind fst snd]; try discriminate.
  - destruct (minSecondPathChunkLength_nonneg target
                (Z.of_nat (List.length c)) Ht ltac:(lia)) as (k & -> & Hk).
    unfold Estraverse.replace.
    pose proof (replace_no_throw fuel k fuel Hk t message) as Hwalk.
    destruct (Estraverse.replace_visits fuel _ t) as [r | m |];
      simpl; try discriminate.
    intros E. injection E as ->. now apply Hwalk.
  - intros E. injection E as ->. now apply Hfirst.
Qed.

(** A run that is cut short by the fuel has not thrown either. *)
Lemma transformNode_never_throws_witness :
  1 <= 2
  /\ transformNode 2 (fun _ _ => false) 1
       (Literal (StringValue [97; 98; 99])) (Literal NullValue)
     <> Throw "First and second chunks values should not be empty"%string.
Proof.
  split; [lia |].
  apply (transformNode_never_throws 2 (fun _ _ => false) 1). lia.
Defined.

(** X10.  A literal that is not a string (a number, a boolean, [null])
    is returned unchanged by [transformNode], whatever the target chunk
    length and whether or not it is prohibited. *)
Theorem transformNode_keeps_other_literals
  (target : Z) (isProhibitedLiteralNode : Node -> Node -> bool)
  (fuel : nat) (value : LiteralValue) (parent : Node) :
  isStringLiteralNode (Literal value) = None ->
  transformNode target isProhibitedLiteralNode (S fuel)
    (Literal value) parent
  = Ok (Literal value).
Proof.
  intros Hv. unfold transformNode, firstPass.
  destruct (isProhibitedLiteralNode (Literal value) parent);
    [reflexivity |].
  assert (Hsplit : forall F K,
            transformLiteralNodeByChunkLength F (Literal value) K
            = Ok (Literal value, []))
    by (intros F K; unfold transformLiteralNodeByChunkLength;
        now rewrite Hv).
  rewrite Hsplit. cbn [bind fst snd].
  unfold Estraverse.replace.
  rewrite replace_visits_step, secondPassEnter_literal, Hsplit.
  reflexivity.
Qed.

Lemma transformNode_keeps_other_literals_witness :
  transformNode 2 (fun _ _ => false) 1 (Literal (NumberValue 12345))
    (Literal NullValue)
  = Ok (Literal (NumberValue 12345)).
Proof.
  apply (transformNode_keeps_other_literals 2 (fun _ _ => false) 0
           (NumberValue 12345) (Literal NullValue)).
  reflexivity.
Defined.

Section Eligible.

Variable target : Z.
Variable isProhibitedLiteralNode : Node -> Node -> bool.
Variables (s : jsstring) (parent : Node).
Hypothesis eligible :
  isProhibitedLiteralNode (Literal (StringValue s)) parent = false.
Hypothesis target_positive : 1 <= target.

Lemma secondPassLength_positive :
  Stringz.length s <= 31000
  \/ target <= ceiling (Stringz.length s) firstPassChunkLength - 2 ->
  1 <= secondPassLength target (Stringz.length s).
Proof.
  intros Hcase. unfold secondPassLength.
  destruct (Z.leb_spec (Stringz.length s) 31000) as [Hs | Hl]; [lia |].
  apply Z.div_le_lower_bound; lia.
Qed.

(** The chunk length that [transformNode] computes for the second
    pass. *)
Lemma minSecondPathChunkLength_recorded :
  minSecondPathChunkLength target
    (if Stringz.length s <=? firstPassChunkLength then 0
     else ceiling (Stringz.length s) firstPassChunkLength - 2)
  = Fin (secondPassLength target (Stringz.length s)).
Proof.
  unfold minSecondPathChunkLength, isLargeString, secondPassLength.
  change (maxStringLengthForSecondPass / firstPassChunkLength) with 30.
  pose proof (ceiling_large (Stringz.length s)) as Hlarge.
  unfold firstPassChunkLength in *.
  destruct (Z.leb_spec (Stringz.length s) 1000) as [H1 | H1].
  - replace (Stringz.length s <=? 31000) with true
      by (symmetry; apply Z.leb_le; lia).
    reflexivity.
  - destruct (Z.leb_spec (Stringz.length s) 31000) as [H2 | H2].
    + replace (30 <=? ceiling (Stringz.length s) 1000 - 2) with false
        by (symmetry; apply Z.leb_gt; lia).
      reflexivity.
    + replace (30 <=? ceiling (Stringz.length s) 1000 - 2) with true
        by (symmetry; apply Z.leb_le; lia).
      unfold Math_floor_div.
      destruct (Z.eqb_spec target 0); [lia | reflexivity].
Qed.

(** The tree that [transformNode] returns, given enough fuel. *)
Lemma transformNode_tree :
  Stringz.length s <= 31000
  \/ target <= ceiling (Stringz.length s) firstPassChunkLength - 2 ->
  exists fuel0 : nat, forall fuel : nat, (fuel0 <= fuel)%nat ->
    transformNode target isProhibitedLiteralNode fuel
      (Literal (StringValue s)) parent
    = Ok (splitLeaves (secondPassLength target (Stringz.length s))
            (firstPassTree s)).
Proof.
  intros Hcase.
  pose proof (secondPassLength_positive Hcase) as Hk.
  pose proof minSecondPathChunkLength_recorded as Hrec.
  destruct (replace_splitLeaves
              (secondPassLength target (Stringz.length s))
              (firstPassTree s) Hk) as [fuel0 Hwalk].
  exists (Nat.max fuel0 (List.length (chunkPlan s firstPassChunkLength))).
  intros fuel Hfuel. unfold transformNode. rewrite eligible.
  unfold firstPassTree in *.
  destruct (Z.leb_spec (Stringz.length s) firstPassChunkLength)
    as [Hshort | Hlong].
  - rewrite firstPass_short by assumption. cbn [bind]. rewrite Hrec.
    unfold Estraverse.replace.
    destruct (Hwalk fuel fuel ltac:(lia) ltac:(lia)) as [visits ->].
    reflexivity.
  - rewrite firstPass_long by assumption.
    replace (_ <=? fuel)%nat with true
      by (symmetry; apply Nat.leb_le; lia).
    cbv zeta. cbn [bind]. rewrite Hrec.
    unfold Estraverse.replace.
    destruct (Hwalk fuel fuel ltac:(lia) ltac:(lia)) as [visits ->].
    reflexivity.
Qed.

End Eligible.

(** The leaves of the first-pass tree: string literals of at most 1000
    code points, empty only when the string itself is. *)
Lemma firstPassTree_leaves (s : jsstring) (leaf : Node) :
  In leaf (leaves (firstPassTree s)) ->
  exists c, leaf = Literal (StringValue c)
            /\ Stringz.length c <= firstPassChunkLength
            /\ (c = [] -> s = []).
Proof.
  unfold firstPassTree, firstPassChunkLength.
  destruct (Z.leb_spec (Stringz.length s) 1000) as [Hshort | Hlong].
  - intros [<- | []]. exists s. auto.
  - rewrite splitTree_leaves by lia. intros Hin.
    apply in_map_iff in Hin as (chunk & <- & Hc).
    pose proof (chunkPlan_chunk_length s 1000 ltac:(lia)) as Hlen.
    rewrite Forall_forall in Hlen. specialize (Hlen chunk Hc).
    exists chunk. repeat split; [lia |].
    intros ->. change (Stringz.length []) with 0 in Hlen. lia.
Qed.




(** X11.  For an eligible string literal of at most 1000 code points and
    a target chunk length of at least 1, the two passes together return
    exactly the tree that one split with the target chunk length
    returns. *)
Theorem short_string_single_split
  (target : Z) (isProhibitedLiteralNode : Node -> Node -> bool)
  (S : jsstring) (parent : Node) :
  isProhibitedLiteralNode (Literal (StringValue S)) parent = false ->
  1 <= target ->
  Stringz.length S <= firstPassChunkLength ->
  exists (fuel0 : nat) (tree : Node),
    forall fuel : nat, (fuel0 <= fuel)%nat ->
      (exists chunks : list jsstring,
         transformLiteralNodeByChunkLength fuel (Literal (StringValue S))
           (Fin target) = Ok (tree, chunks))
      /\ transformNode target isProhibitedLiteralNode fuel
           (Literal (StringValue S)) parent = Ok tree.
Proof.
  intros Heligible Htarget Hshort.
  unfold firstPassChunkLength in Hshort.
  destruct (transformNode_tree target isProhibitedLiteralNode S parent
              Heligible Htarget ltac:(lia)) as [fuel0 Hrun].
  assert (Etree : splitLeaves (secondPassLength target (Stringz.length S))
                    (firstPassTree S)
                  = if Stringz.length S <=? target
                    then Literal (StringValue S) else splitTree S target).
  { unfold secondPassLength, firstPassTree, firstPassChunkLength.
    replace (Stringz.length S <=? 31000) with true
      by (symmetry; apply Z.leb_le; lia).
    replace (Stringz.length S <=? 1000) with true
      by (symmetry; apply Z.leb_le; lia).
    reflexivity. }
  rewrite Etree in Hrun.
  exists (Nat.max fuel0 (List.length (chunkPlan S target))).
  destruct (Z.leb_spec (Stringz.length S) target) as [Hle | Hgt].
  - exists (Literal (StringValue S)). intros fuel Hfuel. split.
    + exists []. apply split_skipped. now apply Z.leb_le.
    + apply Hrun. lia.
  - exists (splitTree S target). intros fuel Hfuel. split.
    + exists (skipn 2 (chunkPlan S target)).
      rewrite split_guarded by lia.
      replace (_ <=? fuel)%nat with true
        by (symmetry; apply Nat.leb_le; lia).
      reflexivity.
    + apply Hrun. lia.
Qed.

Lemma short_string_single_split_witness :
  exists (fuel0 : nat) (tree : Node),
    forall fuel : nat, (fuel0 <= fuel)%nat ->
      transformNode 2 (fun _ _ => false) fuel
        (Literal (StringValue [97; 98; 99])) (Literal NullValue)
      = Ok tree.
Proof.
  destruct (short_string_single_split 2 (fun _ _ => false) [97; 98; 99]
              (Literal NullValue)) as (fuel0 & tree & Hrun).
  - reflexivity.
  - lia.
  - vm_compute. discriminate.
  - exists fuel0, tree. intros fuel Hfuel. apply (Hrun fuel Hfuel).
Defined.



End SizingProperties.

(** ** What a split reports, and splitting again *)

Module ResultProperties.
Import Js Stringz ESTree Symbols Trees Sizing.
Import StringzFacts ChunkingFacts BuilderFacts TransformFacts.
Import ChunkProperties TransformProperties SizingProperties.
Import SplitStringTransformer.

(** X16.  Whatever chunk length it is called with, a split that returns
    either returns the node it was given together with an empty chunk
    list, or returns a tree together with the chunks of all its leaves
    but the two leftmost: the reported chunk list is always two short of
    the chunks that were cut. *)
Theorem split_reports_all_but_two
  (fuel : nat) (node : Node) (K : number)
  (tree : Node) (chunks : list jsstring) :
  transformLiteralNodeByChunkLength fuel node K = Ok (tree, chunks) ->
  (tree = node /\ chunks = [])
  \/ (exists first second : jsstring,
        leaves tree
        = Literal (StringValue first) :: Literal (StringValue second)
          :: List.map NodeFactory.literalNode chunks).
Proof.
  unfold transformLiteralNodeByChunkLength.
  destruct (isStringLiteralNode node) as [s|];
    [| intros E; injection E as <- <-; now left].
  destruct (ge K (Fin (Stringz.length s)));
    [intros E; injection E as <- <-; now left |].
  destruct (chunkString fuel s (Stringz.length s) K) as [plan|];
    [| discriminate].
  pose proof (builder_array plan) as Harray.
  pose proof (builder_returns plan) as Hbuilt.
  destruct (transformStringChunksToBinaryExpressionNode plan)
    as [built rest].
  destruct built as [t | |]; simpl; try discriminate.
  intros E. injection E as <- <-. right.
  destruct (Hbuilt t eq_refl) as (a & b & others & -> & _ & _ & ->).
  simpl in Harray. subst rest.
  exists a, b. now rewrite leaves_fold.
Qed.

Lemma split_reports_all_but_two_witness :
  (BinaryExpression "+"%string
     (BinaryExpression "+"%string (Literal (StringValue [97]))
        (Literal (StringValue [98])))
     (Literal (StringValue [99]))
   = Literal (StringValue [97; 98; 99]) /\ [[99]] = [])
  \/ (exists first second : jsstring,
        leaves
          (BinaryExpression "+"%string
             (BinaryExpression "+"%string (Literal (StringValue [97]))
                (Literal (StringValue [98])))
             (Literal (StringValue [99])))
        = Literal (StringValue first) :: Literal (StringValue second)
          :: List.map NodeFactory.literalNode [[99]]).
Proof.
  apply (split_reports_all_but_two 3 (Literal (StringValue [97; 98; 99]))
           (Fin 1)).
  reflexivity.
Defined.

Lemma splitLeaves_leaves_within (k m : Z) (tree : Node) :
  1 <= k ->
  (forall leaf, In leaf (leaves tree) ->
     exists c, leaf = Literal (StringValue c) /\ Stringz.length c <= m) ->
  forall leaf, In leaf (leaves (splitLeaves k tree)) ->
    exists c, leaf = Literal (StringValue c)
              /\ Stringz.length c <= k /\ Stringz.length c <= m.
Proof.
  intros Hk. induction tree as [value | operator lhs IHl rhs IHr];
    intros Hstr leaf Hin.
  - destruct (Hstr (Literal value)) as (c & E & Hm); [simpl; auto |].
    injection E as ->. simpl in Hin.
    destruct (Z.leb_spec (Stringz.length c) k) as [Hle | Hgt].
    + destruct Hin as [<- | []]. exists c. auto.
    + rewrite splitTree_leaves in Hin by lia.
      apply in_map_iff in Hin as (chunk & <- & Hc).
      pose proof (chunkPlan_chunk_length c k Hk) as Hlen.
      rewrite Forall_forall in Hlen. specialize (Hlen chunk Hc).
      exists chunk. repeat split; lia.
  - simpl in Hin. apply in_app_or in Hin. destruct Hin as [Hin | Hin].
    + apply IHl; [| assumption].
      intros l H. apply Hstr. simpl. apply in_or_app. now left.
    + apply IHr; [| assumption].
      intros l H. apply Hstr. simpl. apply in_or_app. now right.
Qed.

(** A string literal within both the first-pass and the target chunk
    length is returned as it is. *)
Lemma transformNode_settled
  (target : Z) (isProhibitedLiteralNode : Node -> Node -> bool)
  (fuel : nat) (c : jsstring) (parent : Node) :
  Stringz.length c <= firstPassChunkLength ->
  Stringz.length c <= target ->
  transformNode target isProhibitedLiteralNode (S fuel)
    (Literal (StringValue c)) parent
  = Ok (Literal (StringValue c)).
Proof.
  intros H1 Ht. unfold transformNode.
  destruct (isProhibitedLiteralNode _ parent); [reflexivity |].
  rewrite firstPass_short by assumption. cbn [bind].
  change (minSecondPathChunkLength target 0) with (Fin target).
  unfold Estraverse.replace.
  rewrite replace_visits_step, secondPassEnter_literal.
  rewrite split_skipped by (now apply Z.leb_le).
  reflexivity.
Qed.

(** X17.  For an eligible string literal of at most 31000 code points
    and a target chunk length of at least 1, the returned tree is a
    fixed point of the transform: applying [transformNode] with the same
    target chunk length to any of its leaves, under any parent, returns
    that leaf unchanged. *)
Theorem transformNode_leaves_are_settled
  (target : Z) (isProhibitedLiteralNode : Node -> Node -> bool)
  (S : jsstring) (parent : Node) :
  isProhibitedLiteralNode (Literal (StringValue S)) parent = false ->
  1 <= target ->
  Stringz.length S <= 31000 ->
  exists tree : Node,
    (exists fuel0 : nat, forall fuel : nat, (fuel0 <= fuel)%nat ->
       transformNode target isProhibitedLiteralNode fuel
         (Literal (StringValue S)) parent = Ok tree)
    /\ forall (leaf : Node) (prohibited : Node -> Node -> bool)
         (parent' : Node) (fuel : nat),
         In leaf (leaves tree) ->
         transformNode target prohibited (Datatypes.S fuel) leaf parent'
         = Ok leaf.
Proof.
  intros Heligible Htarget Hlen.
  exists (splitLeaves (secondPassLength target (Stringz.length S))
            (firstPassTree S)).
  split; [apply transformNode_tree; auto |].
  intros leaf prohibited parent' fuel Hin.
  assert (Ek : secondPassLength target (Stringz.length S) = target).
  { unfold secondPassLength.
    now replace (Stringz.length S <=? 31000) with true
      by (symmetry; apply Z.leb_le; lia). }
  rewrite Ek in Hin.
  destruct (splitLeaves_leaves_within target firstPassChunkLength
              (firstPassTree S) Htarget) with (leaf := leaf)
    as (c & -> & Hk & Hm); [| assumption |].
  - intros l Hl. destruct (firstPassTree_leaves S l Hl) as (c & E & H & _).
    eauto.
  - now apply transformNode_settled.
Qed.

Lemma transformNode_leaves_are_settled_witness :
  exists tree : Node,
    forall (leaf : Node) (fuel : nat),
      In leaf (leaves tree) ->
      transformNode 2 (fun _ _ => false) (Datatypes.S fuel) leaf
        (Literal NullValue)
      = Ok leaf.
Proof.
  destruct (transformNode_leaves_are_settled 2 (fun _ _ => false)
              [97; 98; 99; 100; 101] (Literal NullValue))
    as (tree & _ & Hleaves).
  - reflexivity.
  - lia.
  - vm_compute. discriminate.
  - exists tree. intros leaf fuel Hin. now apply Hleaves.
Defined.

End ResultProperties.

(** ** The order and the failure behaviour of a run *)

Module OrchestratorProperties.
Import JavaScriptObfuscatorInternal Pipeline.

(** X14.  A run of [obfuscate] calls, after the optional reseeding, the
    parser, parentize, the storage constructor, the analyzer, the storage
    initializer, the obfuscator, the generator and the corrector, in
    this order, each on the generator the call before it left.  The run
    ends at the first call that throws: it then has no result, the
    generator is as that call left it, and the calls made are exactly
    those up to and including it, so nothing is called after a call that
    throws.  A run in which no call throws has made all eight calls and
    returns what the corrector returned. *)
Theorem obfuscate_call_sequence
  (E : Externals) (options : IOptions E) (sourceCode : String.string)
  (g : RandomGenerator E) :
  let g0 := if seed E options =? 0 then g else Chance E (seed E options) in
  let reseed :=
    if seed E options =? 0 then []
    else [SetRandomGenerator (seed E options)] in
  obfuscate E options sourceCode g
  = match esprima_parse E sourceCode esprimaParams g0 with
    | (None, g1) => (None, g1, reseed ++ [EsprimaParse])
    | (Some astTree, g1) =>
    match NodeUtils_parentize E astTree g1 with
    | (None, g2) => (None, g2, reseed ++ [EsprimaParse; Parentize])
    | (Some parentized, g2) =>
    match CustomNodesStorage_new E options g2 with
    | (None, g3) =>
        (None, g3, reseed ++ [EsprimaParse; Parentize; NewCustomNodesStorage])
    | (Some storage, g3) =>
    match StackTraceAnalyzer_analyze E parentized g3 with
    | (None, g4) =>
        (None, g4,
         reseed ++ [EsprimaParse; Parentize; NewCustomNodesStorage; Analyze])
    | (Some stackTraceData, g4) =>
    match CustomNodesStorage_initialize E storage stackTraceData g4 with
    | (None, g5) =>
        (None, g5,
         reseed ++ [EsprimaParse; Parentize; NewCustomNodesStorage; Analyze;
                    InitializeStorage])
    | (Some initialized, g5) =>
    match Obfuscator_obfuscateAstTree E options parentized initialized g5
    with
    | (None, g6) =>
        (None, g6,
         reseed ++ [EsprimaParse; Parentize; NewCustomNodesStorage; Analyze;
                    InitializeStorage; ObfuscateAstTree])
    | (Some obfuscatedAstTree, g6) =>
    match escodegen_generate E obfuscatedAstTree
            (generateOptions E options sourceCode) g6
    with
    | (None, g7) =>
        (None, g7,
         reseed ++ [EsprimaParse; Parentize; NewCustomNodesStorage; Analyze;
                    InitializeStorage; ObfuscateAstTree; EscodegenGenerate])
    | (Some (generated, rawMap), g7) =>
    match SourceMapCorrector_correct E generated (mapText E rawMap)
            (String.append (sourceMapBaseUrl E options)
               (sourceMapFileName E options))
            (sourceMapMode E options) g7
    with
    | (result, g8) =>
        (result, g8,
         reseed ++ [EsprimaParse; Parentize; NewCustomNodesStorage; Analyze;
                    InitializeStorage; ObfuscateAstTree; EscodegenGenerate;
                    Correct])
    end end end end end end end end.
Proof.
  cbv zeta.
  unfold obfuscate, generateCode, getObfuscationResult, andThen,
    external, ret, setRandomGenerator, generateOptions, mapText.
  destruct (seed E options =? 0), (sourceMap E options);
    cbn [escodegenParams verbatim sourceMapWithCode sourceMapOption
         sourceContent formatCompact];
    (destruct (esprima_parse E sourceCode esprimaParams _)
       as [[astTree|] g1]; [| reflexivity]);
    (destruct (NodeUtils_parentize E astTree g1)
       as [[parentized|] g2]; [| reflexivity]);
    (destruct (CustomNodesStorage_new E options g2)
       as [[storage|] g3]; [| reflexivity]);
    (destruct (StackTraceAnalyzer_analyze E parentized g3)
       as [[stackTraceData|] g4]; [| reflexivity]);
    (destruct (CustomNodesStorage_initialize E storage stackTraceData g4)
       as [[initialized|] g5]; [| reflexivity]);
    (destruct (Obfuscator_obfuscateAstTree E options parentized
                 initialized g5)
       as [[obfuscatedAstTree|] g6]; [| reflexivity]);
    (destruct (escodegen_generate E obfuscatedAstTree _ g6)
       as [[[generated rawMap]|] g7]; [| reflexivity]);
    cbn [fst snd code map];
    (destruct (SourceMapCorrector_correct E generated _ _ _ g7)
       as [result g8]); reflexivity.
Qed.

(** X15.  When the parser throws, [obfuscate] returns no result, makes
    no further call, and leaves the generator as the parser left it; the
    parser is given the generator the run was started with when the seed
    is 0 and the freshly seeded one otherwise. *)
Theorem obfuscate_parse_failure
  (E : Externals) (options : IOptions E) (sourceCode : String.string)
  (g g' : RandomGenerator E) :
  esprima_parse E sourceCode esprimaParams
    (firstGenerator E (seed E options) g) = (None, g') ->
  obfuscate E options sourceCode g
  = (None, g', reseeding (seed E options) ++ [EsprimaParse]).
Proof.
  unfold obfuscate, andThen, external, ret, setRandomGenerator,
    firstGenerator, reseeding.
  destruct (seed E options =? 0); intros ->; reflexivity.
Qed.

Lemma obfuscate_parse_failure_witness :
  obfuscate strictExternals 7 ""%string 3
  = (None, 8, [SetRandomGenerator 7; EsprimaParse]).
Proof.
  apply (obfuscate_parse_failure strictExternals 7 ""%string 3 8). reflexivity.
Defined.

End OrchestratorProperties.
